(** * libutil/types.hh: BackedStringView and ChunkedVector

    A shallow embedding of the two data structures of
    [src/libutil/types.hh] and the proofs of their contracts.

    - Unsigned machine integers are values of [Z] with the wrap-around
      written out ([wrap32] for [uint32_t], [wrap_size_t] for [size_t]).
    - [std::vector<T>] is [list T]; [std::vector<std::vector<T>>] is
      [list (list T)].  The capacity of a vector and the addresses of its
      elements are not part of the state; [reserve] is modelled as far as
      it decides the result of a call: [reserve (n)] throws
      [std::length_error] when [n] exceeds [max_size ()].  Running out of
      memory ([std::bad_alloc]) is not modelled.
    - [abort()], a C++ exception and undefined behaviour (unchecked
      access out of range, [back()] of an empty vector, division by zero,
      reading past a character array) are distinct results of the
      [outcome] type.
    - Character buffers live in a heap ([gmap loc string]); a
      [std::string] owns a buffer, a [std::string_view] points into one.
    - [size_t] is taken to be 64 bits wide.  The width matters only for a
      [ChunkSize] above [UINT32_MAX], where the subtraction in the guard
      of [addChunk] wraps.  With this width [max_size ()] of the outer
      vector exceeds every [uint32_t], so neither [chunks.reserve (reserve)]
      nor [chunks.emplace_back ()] can throw [std::length_error]. *)

From Stdlib Require Import ZArith Lia Ascii.
From stdpp Require Import base option list gmap strings.

(** ** Results of a call *)

Inductive outcome (A : Type) : Type :=
  | Done (a : A)     (* the call returned [a] *)
  | Aborted          (* the call reached [abort()] *)
  | Thrown           (* the call left by a C++ exception *)
  | Undefined.       (* the call has undefined behaviour *)

Arguments Done {A} a.
Arguments Aborted {A}.
Arguments Thrown {A}.
Arguments Undefined {A}.

Global Instance outcome_ret : MRet outcome := λ A a, Done a.
Global Instance outcome_bind : MBind outcome := λ A B k m,
  match m with
  | Done a => k a
  | Aborted => Aborted
  | Thrown => Thrown
  | Undefined => Undefined
  end.

(** ** Machine integers *)

Definition UINT32_MAX : Z := 2 ^ 32 - 1.

(** [uint32_t] arithmetic is modulo 2^32. *)
Definition wrap32 (z : Z) : Z := z mod 2 ^ 32.

(** [size_t] arithmetic is modulo 2^64 (LP64). *)
Definition wrap_size_t (z : Z) : Z := z mod 2 ^ 64.

Definition PTRDIFF_MAX : Z := 2 ^ 63 - 1.

(** [std::vector<T>::max_size ()] is [PTRDIFF_MAX / sizeof (T)] in
    libstdc++: its values for [char] and for [std::string] elements. *)
Definition max_size_char : Z := PTRDIFF_MAX.
Definition max_size_string : Z := PTRDIFF_MAX / 32.

(** ** Character buffers, [std::string] and [std::string_view] *)

(** A character buffer is identified by its location; the heap maps the
    live buffers to their bytes. *)
Definition loc : Type := nat.
Abbreviation heap := (gmap nat string).

(** A [std::string] owns the buffer it names. *)
Record std_string : Type := mkString {
  str_buf : loc
}.

(** A [std::string_view] is a pointer into a buffer somebody else owns
    and a length. *)
Record string_view : Type := mkView {
  sv_buf : loc;
  sv_pos : nat;
  sv_len : nat
}.

(** The bytes of a string. *)
Definition string_bytes (h : heap) (s : std_string) : option string :=
  h !! str_buf s.

(** The bytes a view exposes; [None] when the view dangles. *)
Definition view_bytes (h : heap) (sv : string_view) : option string :=
  buf ← h !! sv_buf sv;
  if decide (sv_pos sv + sv_len sv ≤ String.length buf)
  then Some (String.substring (sv_pos sv) (sv_len sv) buf)
  else None.

(** [std::string::operator std::string_view()]: a view of the whole
    buffer, no copy. *)
Definition string_to_view (h : heap) (s : std_string)
  : outcome string_view :=
  match h !! str_buf s with
  | Some buf => Done (mkView (str_buf s) 0 (String.length buf))
  | None => Undefined
  end.

(** [std::string(std::string_view)]: a fresh buffer receives a copy of
    the viewed bytes. *)
Definition string_from_view (h : heap) (sv : string_view)
  : outcome (std_string * heap) :=
  match view_bytes h sv with
  | Some bytes =>
      let l := fresh (dom h) in
      Done (mkString l, <[l:=bytes]> h)
  | None => Undefined
  end.

(** [std::variant<A, B>] with [std::holds_alternative] and [std::get];
    [std::get] of the inactive alternative throws. *)
Inductive variant (A B : Type) : Type :=
  | alt_0 (a : A)
  | alt_1 (b : B).

Arguments alt_0 {A B} a.
Arguments alt_1 {A B} b.

Definition holds_alternative_0 {A B : Type} (v : variant A B) : bool :=
  match v with alt_0 _ => true | alt_1 _ => false end.

Definition get_0 {A B : Type} (v : variant A B) : outcome A :=
  match v with alt_0 a => Done a | alt_1 _ => Thrown end.

Definition get_1 {A B : Type} (v : variant A B) : outcome B :=
  match v with alt_0 _ => Thrown | alt_1 b => Done b end.

(** ** BackedStringView *)

Record BackedStringView : Type := mkBackedStringView {
  data : variant std_string string_view
}.

(** [BackedStringView(std::string && s): data(std::move(s))]: the buffer
    of [s] changes owner, nothing is copied. *)
Definition of_string (s : std_string) : BackedStringView :=
  mkBackedStringView (alt_0 s).

(** [BackedStringView(std::string_view sv): data(sv)]. *)
Definition of_view (sv : string_view) : BackedStringView :=
  mkBackedStringView (alt_1 sv).

(** The [std::string_view] constructor from a character pointer
    measures the array up to its first NUL; [None] when the array holds
    no NUL and the search runs past its end. *)
Fixpoint strlen (s : string) : option nat :=
  match s with
  | EmptyString => None
  | String a s' =>
      if Ascii.eqb a Ascii.zero then Some 0 else S <$> strlen s'
  end.

(** [BackedStringView(const char (& lit)[N]): data(std::string_view(lit))],
    for the character array at [lit]; the buffer at [lit] holds all [N]
    characters of the array, for a string literal its terminating NUL
    among them. *)
Definition of_literal (h : heap) (lit : loc) : outcome BackedStringView :=
  match h !! lit with
  | Some buf =>
      match strlen buf with
      | Some n => Done (of_view (mkView lit 0 n))
      | None => Undefined
      end
  | None => Undefined
  end.

(** No character of [s] is NUL. *)
Fixpoint nul_free (s : string) : bool :=
  match s with
  | EmptyString => true
  | String a s' => negb (Ascii.eqb a Ascii.zero) && nul_free s'
  end.

Definition isOwned (b : BackedStringView) : bool :=
  holds_alternative_0 (data b).

(** [toOwned() &&]: the owned string is moved out, a borrowed view is
    copied into a new string. The result is the string and the heap
    after the call. *)
Definition toOwned (h : heap) (b : BackedStringView)
  : outcome (std_string * heap) :=
  if isOwned b
  then s ← get_0 (data b); Done (s, h)
  else sv ← get_1 (data b); string_from_view h sv.

(** [operator*() const]. *)
Definition operator_star (h : heap) (b : BackedStringView)
  : outcome string_view :=
  if isOwned b
  then s ← get_0 (data b); string_to_view h s
  else get_1 (data b).

(** The temporary [Ptr] of [operator->]. *)
Record Ptr : Type := mkPtr {
  view : string_view
}.

(** [operator->() const]: a [Ptr] around the result of [operator*]. *)
Definition operator_arrow (h : heap) (b : BackedStringView) : outcome Ptr :=
  sv ← operator_star h b; Done (mkPtr sv).

(** ** ChunkedVector *)

(** The two data members of [ChunkedVector<T, ChunkSize>]. *)
Record ChunkedVector (T : Type) : Type := mkChunkedVector {
  size_ : Z;                 (* uint32_t size_ = 0; *)
  chunks : list (list T)     (* std::vector<std::vector<T>> chunks; *)
}.

Arguments mkChunkedVector {T} size_ chunks.
Arguments size_ {T} c.
Arguments chunks {T} c.

(** The place of an element in the container: the number of its chunk
    and its slot inside the chunk. The [T &] that [add] returns is
    represented by the place of the element it refers to. *)
Record elem_ref : Type := mkRef {
  ref_chunk : nat;
  ref_slot : nat
}.

Section ChunkedVector.
Context {T : Type}.
(** The template parameter [size_t ChunkSize]. *)
Variable ChunkSize : Z.
(** [std::vector<T>::max_size ()], a constant of the implementation. *)
Variable max_size : Z.

Local Open Scope Z_scope.

(** [addChunk]: the guard compares [size_] with
    [numeric_limits<uint32_t>::max() - ChunkSize], a [size_t]
    subtraction; otherwise an empty chunk becomes the new tail, and
    [chunks.back().reserve(ChunkSize)] throws [std::length_error] when
    [ChunkSize] exceeds [max_size ()]. The constructor makes this call
    first, so on an object that exists no later call throws. *)
Definition addChunk (s : ChunkedVector T) : outcome (ChunkedVector T) :=
  if wrap_size_t (UINT32_MAX - ChunkSize) <=? size_ s
  then Aborted
  else if max_size <? ChunkSize
  then Thrown
  else Done (mkChunkedVector (size_ s) (chunks s ++ [[]])).

(** The constructor: [size_] starts at 0, [chunks] empty;
    [chunks.reserve(reserve)] changes capacity only ([reserve] is a
    [uint32_t], below [max_size ()] of the outer vector); then
    [addChunk()]. *)
Definition new (reserve : Z) : outcome (ChunkedVector T) :=
  addChunk (mkChunkedVector 0 []).

Definition size (s : ChunkedVector T) : Z := size_ s.

(** [chunk.emplace_back(value)] on the tail chunk, in place. *)
Definition emplace_back_tail (cs : list (list T)) (value : T)
  : list (list T) :=
  alter (λ c, c ++ [value]) (Nat.pred (length cs)) cs.

(** [add]: [idx = size_++] comes first (the increment wraps as a
    [uint32_t]), then the tail chunk is chosen ([chunks.back()] when it
    has room, else [addChunk()]), then the value is appended to it.
    The result is the new state, the reference to the stored element
    and [idx]. *)
Definition add (s : ChunkedVector T) (value : T)
  : outcome (ChunkedVector T * (elem_ref * Z)) :=
  let idx := size_ s in
  let s1 := mkChunkedVector (wrap32 (size_ s + 1)) (chunks s) in
  match last (chunks s1) with
  | None => Undefined
  | Some back =>
      s2 ← (if Z.of_nat (length back) <? ChunkSize
            then Done s1
            else addChunk s1);
      match last (chunks s2) with
      | None => Undefined
      | Some chunk =>
          Done (mkChunkedVector (size_ s2)
                  (emplace_back_tail (chunks s2) value),
                (mkRef (Nat.pred (length (chunks s2))) (length chunk),
                 idx))
      end
  end.

(** [operator[]]: [chunks[idx / ChunkSize][idx % ChunkSize]], both
    accesses unchecked. *)
Definition operator_index (s : ChunkedVector T) (idx : Z) : outcome T :=
  if ChunkSize =? 0 then Undefined
  else
    match chunks s !! Z.to_nat (idx / ChunkSize) with
    | None => Undefined
    | Some c =>
        match c !! Z.to_nat (idx mod ChunkSize) with
        | None => Undefined
        | Some e => Done e
        end
    end.

(** The element at a place, if there is one. *)
Definition deref (s : ChunkedVector T) (r : elem_ref) : option T :=
  c ← chunks s !! ref_chunk r; c !! ref_slot r.

(** [forEach]: the visitor [fn] is called on every element of every
    chunk, outer loop over chunks, inner loop over the chunk; the
    visitor's own state is threaded through the calls. *)
Definition forEach {A : Type} (fn : A → T → A) (s : ChunkedVector T)
    (a : A) : A :=
  foldl (λ acc c, foldl fn acc c) a (chunks s).

(** A sequence of [add] calls, collecting what each call returned. *)
Fixpoint add_seq (s : ChunkedVector T) (values : list T)
  : outcome (ChunkedVector T * list (elem_ref * Z)) :=
  match values with
  | [] => Done (s, [])
  | v :: values' =>
      '(s1, r) ← add s v;
      '(s2, rs) ← add_seq s1 values';
      Done (s2, r :: rs)
  end.

(** Construction followed by a sequence of [add] calls. *)
Definition build (reserve : Z) (values : list T)
  : outcome (ChunkedVector T * list (elem_ref * Z)) :=
  s ← new reserve; add_seq s values.

End ChunkedVector.

(** ** Well-formed stores *)

Section Invariants.
Context {T : Type}.
Variable ChunkSize : Z.

Local Open Scope Z_scope.

(** Number of elements held by the chunks. *)
Definition stored (s : ChunkedVector T) : nat :=
  length (concat (chunks s)).

(** The shape of every store built by the constructor and [add]: full
    chunks followed by the tail chunk, which is empty only while it is
    the first chunk, and a counter equal to the number of stored
    elements as a [uint32_t]. *)
Definition shape (s : ChunkedVector T) : Prop :=
  ∃ (pre : list (list T)) (bk : list T),
    chunks s = pre ++ [bk]
    ∧ Forall (λ c, Z.of_nat (length c) = ChunkSize) pre
    ∧ Z.of_nat (length bk) ≤ ChunkSize
    ∧ (pre = [] ∨ (0 < length bk)%nat)
    ∧ size_ s = wrap32 (Z.of_nat (stored s)).

(** Every chunk after the first was allocated by an [addChunk] whose
    guard did not fire: the counter, already incremented for the first
    element of the new chunk, was below [UINT32_MAX - ChunkSize]. *)
Definition guarded (s : ChunkedVector T) : Prop :=
  ∀ (pre : list (list T)) (bk : list T),
    chunks s = pre ++ [bk] →
    pre = []
    ∨ Z.of_nat (length pre) * ChunkSize + 1 < UINT32_MAX - ChunkSize.


Definition inner_chunks_full (s : ChunkedVector T) : Prop :=
  ∀ (i : nat) (c : list T),
    chunks s !! i = Some c →
    (S i < length (chunks s))%nat →
    Z.of_nat (length c) = ChunkSize.



End Invariants.

(** Number of chunks needed for [n] elements: [ceil (n / c)]. *)
Definition ceil_div (n c : Z) : Z := ((n + c - 1) / c)%Z.

(** Number of elements a [ChunkedVector<T, ChunkSize>] accepts before
    [add] aborts: the first multiple [k * ChunkSize], [k >= 1], at which
    the guard of [addChunk] fires, that is, with
    [k * ChunkSize + 1 >= UINT32_MAX - ChunkSize]. *)
Definition capacity (ChunkSize : Z) : Z :=
  (ChunkSize * Z.max 1 (ceil_div (UINT32_MAX - ChunkSize - 1) ChunkSize))%Z.

(** * Proofs *)

(** ** The contracts of BackedStringView *)

Lemma substring_whole (s : string) :
  String.substring 0 (String.length s) s = s.
Proof. induction s as [|a s IH]; cbn; [done|]. by rewrite IH. Qed.

(** The view of a whole live buffer exposes the buffer's bytes. *)
Lemma view_bytes_whole (h : heap) (l : loc) (buf : string) :
  h !! l = Some buf →
  view_bytes h (mkView l 0 (String.length buf)) = Some buf.
Proof.
  intros Hl. unfold view_bytes. cbn [sv_buf sv_pos sv_len].
  rewrite Hl. cbn. rewrite decide_True by lia.
  by rewrite substring_whole.
Qed.

(** Allocation does not disturb what existing views expose. *)
Lemma view_bytes_weaken (h h' : heap) (sv : string_view) (bytes : string) :
  h ⊆ h' → view_bytes h sv = Some bytes → view_bytes h' sv = Some bytes.
Proof.
  intros Hsub. unfold view_bytes.
  destruct (h !! sv_buf sv) as [buf|] eqn:Hbuf; [|done].
  by rewrite (lookup_weaken _ _ _ _ Hbuf Hsub).
Qed.

(** A BackedStringView was built by one of the two constructors. *)
Lemma BackedStringView_cases (b : BackedStringView) :
  (∃ buf, b = of_string buf) ∨ (∃ sv, b = of_view sv).
Proof. destruct b as [[buf|sv]]; [left|right]; by eexists. Qed.

(** C9. [isOwned()] is true exactly in the owned state: true for a
    view constructed from a string, false for a view constructed from a
    slice.  The query is a function of the object alone. *)
Theorem isOwned_iff_owned :
  (∀ b : BackedStringView, isOwned b = true ↔ ∃ buf, data b = alt_0 buf)
  ∧ (∀ buf : std_string, isOwned (of_string buf) = true)
  ∧ (∀ sv : string_view, isOwned (of_view sv) = false).
Proof.
  repeat split.
  - destruct b as [[buf|sv]]; [by exists buf|discriminate].
  - destruct b as [[buf|sv]]; [done|]. by intros [? [=]].
Qed.

(** C8. [operator*] exposes the active data whichever alternative is
    active: for a view constructed from a slice it returns that very
    slice, for a view constructed from a string it returns a view of
    the string's own buffer, whose bytes are the string's. The result
    is computed from the object and nothing is written. *)
Theorem operator_star_contents (h : heap) (slice : string_view)
    (buf : std_string) (bytes : string) :
  string_bytes h buf = Some bytes →
  operator_star h (of_view slice) = Done slice
  ∧ ∃ sv,
      operator_star h (of_string buf) = Done sv
      ∧ sv_buf sv = str_buf buf
      ∧ view_bytes h sv = Some bytes.
Proof.
  intros Hbuf. split; [done|].
  unfold operator_star, of_string, isOwned, string_to_view.
  cbn [data holds_alternative_0 get_0 mbind outcome_bind].
  unfold string_bytes in Hbuf. rewrite Hbuf.
  eexists. repeat split. by apply view_bytes_whole.
Qed.

Lemma operator_star_contents_witness :
  operator_star {[0 := "hello"%string]} (of_view (mkView 0 1 3))
  = Done (mkView 0 1 3)
  ∧ ∃ sv,
      operator_star {[0 := "hello"%string]} (of_string (mkString 0))
      = Done sv
      ∧ sv_buf sv = str_buf (mkString 0)
      ∧ view_bytes {[0 := "hello"%string]} sv = Some "hello"%string.
Proof.
  apply (operator_star_contents {[0 := "hello"%string]} (mkView 0 1 3)
           (mkString 0) "hello"%string).
  reflexivity.
Defined.

(** C7. [toOwned] returns a string whose bytes are the bytes
    [operator*] exposes, in either state. From a view constructed from
    the string [buf] it returns [buf] itself, nothing is copied and the
    heap is as before; from a view constructed from a slice it returns
    a string on a new buffer holding a copy of the slice's bytes, and
    every buffer that existed, the slice's among them, is as before. *)
Theorem toOwned_contents (h : heap) (buf : std_string) (slice : string_view)
    (buf_bytes slice_bytes : string) :
  string_bytes h buf = Some buf_bytes →
  view_bytes h slice = Some slice_bytes →
  (toOwned h (of_string buf) = Done (buf, h)
   ∧ ∃ sv,
       operator_star h (of_string buf) = Done sv
       ∧ view_bytes h sv = Some buf_bytes)
  ∧ ∃ (s : std_string) (h' : heap),
      toOwned h (of_view slice) = Done (s, h')
      ∧ string_bytes h' s = Some slice_bytes
      ∧ operator_star h (of_view slice) = Done slice
      ∧ h !! str_buf s = None
      ∧ h ⊆ h'
      ∧ view_bytes h' slice = Some slice_bytes.
Proof.
  intros Hbuf Hslice. split.
  - split; [done|].
    unfold operator_star, of_string, isOwned, string_to_view.
    cbn [data holds_alternative_0 get_0 mbind outcome_bind].
    unfold string_bytes in Hbuf. rewrite Hbuf.
    eexists. split; [done|]. by apply view_bytes_whole.
  - unfold toOwned, operator_star, of_view, isOwned, string_from_view.
    cbn [data holds_alternative_0 get_1 mbind outcome_bind].
    rewrite Hslice.
    eexists _, _. split; [done|]. unfold string_bytes. cbn [str_buf].
    match goal with
    | |- <[?l:=_]> _ !! _ = _ ∧ _ =>
        assert (h !! l = None) as Hfresh by (apply not_elem_of_dom, is_fresh)
    end.
    split; [by rewrite lookup_insert_eq|]. split; [done|].
    split; [done|].
    assert (h ⊆ <[fresh (dom h):=slice_bytes]> h) as Hsub
      by by apply insert_subseteq.
    split; [done|]. by apply (view_bytes_weaken h).
Qed.

Lemma toOwned_contents_witness :
  (toOwned {[0 := "hello"%string; 1 := "world"%string]}
     (of_string (mkString 1))
   = Done (mkString 1, {[0 := "hello"%string; 1 := "world"%string]})
   ∧ ∃ sv,
       operator_star {[0 := "hello"%string; 1 := "world"%string]}
         (of_string (mkString 1))
       = Done sv
       ∧ view_bytes {[0 := "hello"%string; 1 := "world"%string]} sv
         = Some "world"%string)
  ∧ ∃ (s : std_string) (h' : heap),
      toOwned {[0 := "hello"%string; 1 := "world"%string]}
        (of_view (mkView 0 1 3))
      = Done (s, h')
      ∧ string_bytes h' s = Some "ell"%string
      ∧ operator_star {[0 := "hello"%string; 1 := "world"%string]}
          (of_view (mkView 0 1 3))
        = Done (mkView 0 1 3)
      ∧ ({[0 := "hello"%string; 1 := "world"%string]} : heap) !! str_buf s
        = None
      ∧ {[0 := "hello"%string; 1 := "world"%string]} ⊆ h'
      ∧ view_bytes h' (mkView 0 1 3) = Some "ell"%string.
Proof.
  apply (toOwned_contents {[0 := "hello"%string; 1 := "world"%string]}
           (mkString 1) (mkView 0 1 3) "world"%string "ell"%string).
  - reflexivity.
  - reflexivity.
Defined.

(** The scenario of the specification: a borrowed "hello" is copied
    into a second buffer and the first one stays. *)
Example toOwned_hello :
  toOwned {[0 := "hello"%string]} (of_view (mkView 0 0 5))
  = Done (mkString 1, {[0 := "hello"%string; 1 := "hello"%string]}).
Proof. reflexivity. Qed.

(** ** Facts about ChunkedVector *)

Lemma max_size_string_large : (2 ^ 32 ≤ max_size_string)%Z.
Proof. vm_compute. intros H. discriminate H. Qed.


Section ChunkedVectorFacts.
Context {T : Type}.
Variable ChunkSize : Z.
Variable max_size : Z.

Local Open Scope Z_scope.

Implicit Types (s : ChunkedVector T) (v x : T) (pre : list (list T))
  (bk : list T).

Lemma wrap32_small z : 0 ≤ z ≤ UINT32_MAX → wrap32 z = z.
Proof. unfold wrap32, UINT32_MAX. intros ?. apply Z.mod_small. lia. Qed.

Lemma guard_small :
  0 ≤ ChunkSize ≤ UINT32_MAX →
  wrap_size_t (UINT32_MAX - ChunkSize) = UINT32_MAX - ChunkSize.
Proof. unfold wrap_size_t, UINT32_MAX. intros ?. apply Z.mod_small. lia. Qed.

(** [add] on a store whose chunk sequence ends in [bk]. *)
Lemma add_snoc sz pre bk v :
  add ChunkSize max_size (mkChunkedVector sz (pre ++ [bk])) v =
    if Z.of_nat (length bk) <? ChunkSize
    then Done (mkChunkedVector (wrap32 (sz + 1)) (pre ++ [bk ++ [v]]),
               (mkRef (length pre) (length bk), sz))
    else if wrap_size_t (UINT32_MAX - ChunkSize) <=? wrap32 (sz + 1)
    then Aborted
    else if max_size <? ChunkSize
    then Thrown
    else Done (mkChunkedVector (wrap32 (sz + 1)) (pre ++ [bk; [v]]),
               (mkRef (S (length pre)) 0, sz)).
Proof.
  unfold add, addChunk, emplace_back_tail. cbn [chunks size_].
  rewrite last_snoc.
  destruct (Z.of_nat (length bk) <? ChunkSize);
    cbn [mbind outcome_bind chunks size_].
  - rewrite last_snoc, length_app. cbn [length].
    replace (Nat.pred (length pre + 1)) with (length pre + 0)%nat by lia.
    rewrite alter_app_r. cbn. rewrite Nat.add_0_r. reflexivity.
  - destruct (wrap_size_t (UINT32_MAX - ChunkSize) <=? wrap32 (sz + 1));
      cbn [mbind outcome_bind chunks size_]; [reflexivity|].
    destruct (max_size <? ChunkSize);
      cbn [mbind outcome_bind chunks size_]; [reflexivity|].
    rewrite last_snoc, !length_app. cbn [length].
    replace (Nat.pred (length pre + 1 + 1))
      with (length (pre ++ [bk]) + 0)%nat
      by (rewrite length_app; cbn; lia).
    rewrite alter_app_r. cbn. rewrite <- app_assoc. cbn.
    rewrite Nat.add_0_r, length_app. cbn [length].
    replace (length pre + 1)%nat with (S (length pre)) by lia. reflexivity.
Qed.

(** Any store on which [add] does not run into undefined behaviour ends
    in a tail chunk. *)
Lemma chunks_snoc_inv s :
  chunks s ≠ [] → ∃ pre bk, s = mkChunkedVector (size_ s) (pre ++ [bk]).
Proof.
  intros Hne. destruct s as [sz cs]. cbn in *.
  destruct (last cs) as [bk|] eqn:Hl.
  - apply last_Some in Hl as [pre ->]. by exists pre, bk.
  - apply last_None in Hl. done.
Qed.

Lemma concat_snoc (pre : list (list T)) bk :
  concat (pre ++ [bk]) = concat pre ++ bk.
Proof. rewrite concat_app. cbn. by rewrite app_nil_r. Qed.

Lemma length_concat_full pre :
  Forall (λ c, Z.of_nat (length c) = ChunkSize) pre →
  Z.of_nat (length (concat pre)) = Z.of_nat (length pre) * ChunkSize.
Proof.
  induction 1 as [|c pre Hc _ IH]; cbn [concat length]; [lia|].
  rewrite length_app. lia.
Qed.

Lemma stored_snoc sz pre bk :
  Forall (λ c, Z.of_nat (length c) = ChunkSize) pre →
  Z.of_nat (stored (mkChunkedVector sz (pre ++ [bk])))
  = Z.of_nat (length pre) * ChunkSize + Z.of_nat (length bk).
Proof.
  intros Hfull. unfold stored. cbn [chunks].
  rewrite concat_snoc, length_app, Nat2Z.inj_add.
  by rewrite length_concat_full.
Qed.

Lemma wrap32_succ z : wrap32 (wrap32 z + 1) = wrap32 (z + 1).
Proof. unfold wrap32. by rewrite Zplus_mod_idemp_l. Qed.

(** What one successful [add] does, whatever the store: the value goes
    to the end of the flattened contents, the counter is incremented as
    a [uint32_t], the index returned is the old counter and the
    reference returned reads back the value. *)
Lemma add_done s v s' r i :
  add ChunkSize max_size s v = Done (s', (r, i)) →
  concat (chunks s') = concat (chunks s) ++ [v]
  ∧ size_ s' = wrap32 (size_ s + 1)
  ∧ i = size_ s
  ∧ deref s' r = Some v.
Proof.
  intros Hadd.
  assert (chunks s ≠ []) as Hne.
  { intros Hnil. unfold add in Hadd. cbn [chunks] in Hadd.
    rewrite Hnil in Hadd. discriminate. }
  destruct (chunks_snoc_inv s Hne) as (pre & bk & Hs).
  rewrite Hs, add_snoc in Hadd. rewrite Hs at 1. cbn [chunks].
  destruct (Z.of_nat (length bk) <? ChunkSize).
  - injection Hadd as <- <- <-. cbn [chunks size_].
    rewrite !concat_snoc, app_assoc. repeat split; try done.
    unfold deref. cbn [ref_chunk ref_slot chunks].
    rewrite list_lookup_middle by done. cbn.
    by rewrite list_lookup_middle.
  - destruct (wrap_size_t (UINT32_MAX - ChunkSize) <=? wrap32 (size_ s + 1));
      [discriminate|].
    destruct (max_size <? ChunkSize); [discriminate|].
    injection Hadd as <- <- <-. cbn [chunks size_].
    rewrite concat_snoc, concat_app. cbn [concat]. rewrite app_nil_r, app_assoc.
    repeat split; try done.
    unfold deref. cbn [ref_chunk ref_slot chunks].
    replace (pre ++ [bk; [v]]) with ((pre ++ [bk]) ++ [[v]])
      by by rewrite <- app_assoc.
    rewrite list_lookup_middle by (rewrite length_app; cbn; lia). done.
Qed.

(** [add] never removes or changes a stored element: every chunk slot
    that held a value still holds it. *)
Lemma add_deref_stable s v s' ri r x :
  add ChunkSize max_size s v = Done (s', ri) →
  deref s r = Some x → deref s' r = Some x.
Proof.
  intros Hadd.
  assert (chunks s ≠ []) as Hne.
  { intros Hnil. unfold add in Hadd. cbn [chunks] in Hadd.
    rewrite Hnil in Hadd. discriminate. }
  destruct (chunks_snoc_inv s Hne) as (pre & bk & Hs).
  rewrite Hs, add_snoc in Hadd. rewrite Hs. unfold deref. cbn [chunks].
  destruct r as [ci sl]. cbn [ref_chunk ref_slot].
  destruct ((pre ++ [bk]) !! ci) as [c|] eqn:Hc; [|done]. cbn.
  intros Hx.
  destruct (Z.of_nat (length bk) <? ChunkSize).
  - injection Hadd as <- <-. cbn [chunks].
    apply lookup_snoc_Some in Hc as [[Hlt Hc]|[-> ->]].
    + rewrite lookup_app_l by done. rewrite Hc. done.
    + rewrite list_lookup_middle by done. cbn.
      by apply lookup_app_l_Some.
  - destruct (wrap_size_t (UINT32_MAX - ChunkSize) <=? wrap32 (size_ s + 1));
      [discriminate|].
    destruct (max_size <? ChunkSize); [discriminate|].
    injection Hadd as <- <-. cbn [chunks].
    replace (pre ++ [bk; [v]]) with ((pre ++ [bk]) ++ [[v]])
      by by rewrite <- app_assoc.
    erewrite lookup_app_l_Some by done. done.
Qed.

(** The two ways a successful [add] changes the chunk sequence. *)
Lemma add_chunks_step s v s' ri :
  add ChunkSize max_size s v = Done (s', ri) →
  ∃ pre bk,
    chunks s = pre ++ [bk]
    ∧ ((Z.of_nat (length bk) < ChunkSize ∧ chunks s' = pre ++ [bk ++ [v]])
       ∨ (ChunkSize ≤ Z.of_nat (length bk)
          ∧ wrap32 (size_ s + 1) < wrap_size_t (UINT32_MAX - ChunkSize)
          ∧ chunks s' = (pre ++ [bk]) ++ [[v]])).
Proof.
  intros Hadd.
  assert (chunks s ≠ []) as Hne.
  { intros Hnil. unfold add in Hadd. cbn [chunks] in Hadd.
    rewrite Hnil in Hadd. discriminate. }
  destruct (chunks_snoc_inv s Hne) as (pre & bk & Hs).
  rewrite Hs, add_snoc in Hadd. exists pre, bk. split; [by rewrite Hs|].
  destruct (Z.ltb_spec (Z.of_nat (length bk)) ChunkSize).
  - left. injection Hadd as <- <-. done.
  - right.
    destruct (Z.leb_spec (wrap_size_t (UINT32_MAX - ChunkSize))
                (wrap32 (size_ s + 1))); [discriminate|].
    destruct (max_size <? ChunkSize); [discriminate|].
    injection Hadd as <- <-. cbn [chunks]. by rewrite <- app_assoc.
Qed.

Lemma stored_add s v s' ri :
  add ChunkSize max_size s v = Done (s', ri) → stored s' = S (stored s).
Proof.
  destruct ri as [r i]. intros (Hc & _)%add_done. unfold stored.
  rewrite Hc, length_app. cbn. lia.
Qed.

Lemma add_shape s v s' ri :
  0 < ChunkSize →
  shape ChunkSize s → add ChunkSize max_size s v = Done (s', ri) →
  shape ChunkSize s'.
Proof.
  intros HC (pre & bk & Hcs & Hfull & Hle & Hne & Hsz) Hadd.
  assert (size_ s' = wrap32 (Z.of_nat (stored s'))) as Hsz'.
  { rewrite (stored_add _ _ _ _ Hadd), Nat2Z.inj_succ.
    destruct ri as [r i]. apply add_done in Hadd as (_ & -> & _).
    rewrite Hsz. apply wrap32_succ. }
  apply add_chunks_step in Hadd as (pre' & bk' & Hcs' & Hstep).
  rewrite Hcs in Hcs'. apply app_inj_tail in Hcs' as [<- <-].
  destruct Hstep as [[Hlt Hs']|(Hge & _ & Hs')].
  - exists pre, (bk ++ [v]). rewrite length_app. cbn [length].
    repeat split; [done..|lia| |done]. right. lia.
  - exists (pre ++ [bk]), [v]. cbn [length].
    repeat split; [done| |lia| |done].
    + apply Forall_app. split; [done|].
      apply Forall_singleton. lia.
    + right. lia.
Qed.

Lemma shape_guarded_size s :
  0 < ChunkSize ≤ UINT32_MAX →
  shape ChunkSize s → guarded ChunkSize s →
  size_ s = Z.of_nat (stored s) ∧ Z.of_nat (stored s) ≤ UINT32_MAX.
Proof.
  intros HC (pre & bk & Hcs & Hfull & Hle & Hne & Hsz) Hg.
  assert (Z.of_nat (stored s) ≤ UINT32_MAX) as Hb.
  { destruct s as [sz cs]. cbn in Hcs. subst cs.
    rewrite stored_snoc by done.
    destruct (Hg pre bk eq_refl) as [->|Hlt]; cbn [length]; lia. }
  split; [|done]. rewrite Hsz. apply wrap32_small. lia.
Qed.

Lemma add_guarded s v s' ri :
  0 < ChunkSize ≤ UINT32_MAX →
  shape ChunkSize s → guarded ChunkSize s →
  add ChunkSize max_size s v = Done (s', ri) →
  guarded ChunkSize s'.
Proof.
  intros HC Hsh Hg Hadd.
  destruct (shape_guarded_size s HC Hsh Hg) as [Hsz Hb].
  destruct Hsh as (pre & bk & Hcs & Hfull & Hle & Hne & _).
  apply add_chunks_step in Hadd as (pre' & bk' & Hcs' & Hstep).
  rewrite Hcs in Hcs'. apply app_inj_tail in Hcs' as [<- <-].
  intros pre' bk' Hcs'.
  destruct Hstep as [[Hlt Hs']|(Hge & Hguard & Hs')];
    rewrite Hs' in Hcs'; apply app_inj_tail in Hcs' as [<- <-].
  - by apply (Hg pre bk).
  - right. rewrite guard_small in Hguard by lia.
    assert (Z.of_nat (stored s)
            = Z.of_nat (length pre) * ChunkSize + Z.of_nat (length bk)) as Hst.
    { destruct s as [sz cs]. cbn in Hcs. subst cs. by apply stored_snoc. }
    rewrite length_app, Nat2Z.inj_add. cbn [length].
    destruct (decide (size_ s + 1 ≤ UINT32_MAX)) as [Hs|Hs].
    + rewrite wrap32_small in Hguard by lia. lia.
    + assert (size_ s + 1 = 2 ^ 32) as Heq by (unfold UINT32_MAX in *; lia).
      rewrite Heq in Hguard. unfold wrap32 in Hguard.
      rewrite Z.mod_same in Hguard by lia.
      destruct (Hg pre bk Hcs) as [->|Hlt]; cbn [length] in *; lia.
Qed.

(** Index arithmetic on a sequence of full chunks and a tail chunk:
    position [j] of the flattened contents is slot [j mod n] of chunk
    [j / n]. *)
Lemma lookup_concat_chunks (n : nat) pre bk (j : nat) :
  (0 < n)%nat →
  Forall (λ c, length c = n) pre → (length bk ≤ n)%nat →
  concat (pre ++ [bk]) !! j
  = (pre ++ [bk]) !! (j / n)%nat ≫= (λ c, c !! (j mod n)%nat).
Proof.
  intros Hn Hfull Hbk. revert j.
  induction Hfull as [|c pre Hc _ IH]; intros j.
  - cbn [app concat]. rewrite app_nil_r.
    destruct (decide (j < n)%nat) as [Hj|Hj].
    + rewrite Nat.div_small, Nat.mod_small by done. done.
    + rewrite lookup_ge_None_2 by lia.
      assert (1 ≤ j / n)%nat as Hq
        by (apply Nat.div_le_lower_bound; lia).
      destruct (j / n)%nat as [|q]; [lia|]. done.
  - cbn [app concat].
    destruct (decide (j < n)%nat) as [Hj|Hj].
    + rewrite Nat.div_small, Nat.mod_small by done. cbn.
      apply lookup_app_l. lia.
    + rewrite lookup_app_r by lia. rewrite Hc, IH.
      assert (j = (j - n) + 1 * n)%nat as Hj' by lia.
      assert (j / n = S ((j - n) / n))%nat as ->.
      { rewrite Hj' at 1. rewrite Nat.div_add by lia. lia. }
      assert (j mod n = (j - n) mod n)%nat as ->.
      { rewrite Hj' at 1. by rewrite Nat.Div0.mod_add. }
      done.
Qed.

(** On a well-shaped store [operator[]] reads the flattened contents. *)
Lemma operator_index_concat s (i : Z) :
  0 < ChunkSize → shape ChunkSize s → 0 ≤ i →
  operator_index ChunkSize s i
  = match concat (chunks s) !! Z.to_nat i with
    | Some v => Done v
    | None => Undefined
    end.
Proof.
  intros HC (pre & bk & Hcs & Hfull & Hle & _) Hi.
  unfold operator_index.
  destruct (Z.eqb_spec ChunkSize 0) as [?|_]; [lia|].
  rewrite Hcs.
  rewrite (lookup_concat_chunks (Z.to_nat ChunkSize)); [|lia| |lia].
  - rewrite Z2Nat.inj_div, Z2Nat.inj_mod by lia.
    destruct ((pre ++ [bk]) !! (Z.to_nat i / Z.to_nat ChunkSize)%nat);
      done.
  - eapply Forall_impl; [exact Hfull|]. cbn. lia.
Qed.

(** The constructor. *)
Lemma new_done reserve s :
  new ChunkSize max_size reserve = Done s →
  s = mkChunkedVector 0 [[]]
  ∧ 0 < wrap_size_t (UINT32_MAX - ChunkSize)
  ∧ ChunkSize ≤ max_size.
Proof.
  unfold new, addChunk. cbn [size_ chunks].
  destruct (Z.leb_spec (wrap_size_t (UINT32_MAX - ChunkSize)) 0);
    [discriminate|].
  destruct (Z.ltb_spec max_size ChunkSize); [discriminate|].
  by intros [= <-].
Qed.

Lemma new_small reserve :
  0 ≤ ChunkSize < UINT32_MAX → ChunkSize ≤ max_size →
  new ChunkSize max_size reserve = Done (@mkChunkedVector T 0 [[]]).
Proof.
  intros HC Hmax. unfold new, addChunk. cbn [size_ chunks].
  rewrite guard_small by lia.
  destruct (Z.leb_spec (UINT32_MAX - ChunkSize) 0); [lia|].
  destruct (Z.ltb_spec max_size ChunkSize); [lia|done].
Qed.

Lemma new_shape reserve s :
  0 < ChunkSize → new ChunkSize max_size reserve = Done s →
  shape ChunkSize s ∧ guarded ChunkSize s.
Proof.
  intros HC (-> & _)%new_done. split.
  - exists [], []. cbn. repeat split; [constructor|lia|by left].
  - intros pre bk Hcs. left. cbn in Hcs.
    destruct pre as [|c [|??]]; [done|discriminate..].
Qed.

(** ** Sequences of [add] calls *)

Lemma add_seq_cons_inv s v vs s' rs :
  add_seq ChunkSize max_size s (v :: vs) = Done (s', rs) →
  ∃ s1 ri rs',
    add ChunkSize max_size s v = Done (s1, ri)
    ∧ add_seq ChunkSize max_size s1 vs = Done (s', rs')
    ∧ rs = ri :: rs'.
Proof.
  cbn [add_seq].
  destruct (add ChunkSize max_size s v) as [[s1 ri]| | |]; cbn; [|done..].
  destruct (add_seq ChunkSize max_size s1 vs) as [[s2 rs']| | |] eqn:Hseq; cbn;
    [|done..].
  intros [= <- <-]. by exists s1, ri, rs'.
Qed.

(** A property that every successful [add] preserves holds after any
    successful sequence of [add] calls. *)
Lemma add_seq_preserves (P : ChunkedVector T → Prop) :
  (∀ s v s' ri,
     P s → add ChunkSize max_size s v = Done (s', ri) → P s') →
  ∀ vs s s' rs,
    P s → add_seq ChunkSize max_size s vs = Done (s', rs) → P s'.
Proof.
  intros Hstep. induction vs as [|v vs IH]; intros s s' rs HP Hseq.
  - by injection Hseq as <- _.
  - apply add_seq_cons_inv in Hseq as (s1 & ri & rs' & Hadd & Hseq & _).
    eapply IH; [|exact Hseq]. by eapply Hstep.
Qed.

Lemma add_seq_inv vs s s' rs :
  0 < ChunkSize ≤ UINT32_MAX →
  shape ChunkSize s ∧ guarded ChunkSize s →
  add_seq ChunkSize max_size s vs = Done (s', rs) →
  shape ChunkSize s' ∧ guarded ChunkSize s'.
Proof.
  intros HC.
  apply (add_seq_preserves (λ s, shape ChunkSize s ∧ guarded ChunkSize s)).
  clear -HC. intros s v s' ri [Hsh Hg] Hadd. split.
  - eapply add_shape; [lia|done..].
  - by eapply add_guarded.
Qed.

Lemma add_seq_shape vs s s' rs :
  0 < ChunkSize → shape ChunkSize s →
  add_seq ChunkSize max_size s vs = Done (s', rs) → shape ChunkSize s'.
Proof.
  intros HC. apply (add_seq_preserves (shape ChunkSize)).
  intros ????. by apply add_shape.
Qed.

Lemma add_seq_deref_stable vs s s' rs r x :
  add_seq ChunkSize max_size s vs = Done (s', rs) →
  deref s r = Some x → deref s' r = Some x.
Proof.
  intros Hseq Hx. revert Hseq.
  apply (add_seq_preserves (λ s, deref s r = Some x)); [|done].
  intros ????? Hadd. by eapply add_deref_stable.
Qed.

Lemma add_seq_concat vs s s' rs :
  add_seq ChunkSize max_size s vs = Done (s', rs) →
  concat (chunks s') = concat (chunks s) ++ vs.
Proof.
  revert s rs. induction vs as [|v vs IH]; intros s rs Hseq.
  - injection Hseq as <- _. by rewrite app_nil_r.
  - apply add_seq_cons_inv in Hseq as (s1 & [r i] & rs' & Hadd & Hseq & _).
    apply add_done in Hadd as (Hc & _).
    rewrite (IH _ _ Hseq), Hc, <- app_assoc. done.
Qed.

(** The references and indices a sequence of [add] calls returns. *)
Lemma add_seq_refs vs s s' rs :
  add_seq ChunkSize max_size s vs = Done (s', rs) →
  Forall2 (λ ri v, deref s' ri.1 = Some v) rs vs.
Proof.
  revert s rs. induction vs as [|v vs IH]; intros s rs Hseq.
  - injection Hseq as _ <-. constructor.
  - apply add_seq_cons_inv in Hseq as (s1 & [r i] & rs' & Hadd & Hseq & ->).
    constructor; [|by eapply IH].
    apply add_done in Hadd as (_ & _ & _ & Hr).
    by eapply add_seq_deref_stable.
Qed.


(** The reference [add] returns designates chunk [n / ChunkSize], slot
    [n mod ChunkSize], for [n] the number of elements stored before. *)
Lemma add_ref_location s v s' r idx :
  0 < ChunkSize → shape ChunkSize s →
  add ChunkSize max_size s v = Done (s', (r, idx)) →
  r = mkRef (Z.to_nat (Z.of_nat (stored s) / ChunkSize))
        (Z.to_nat (Z.of_nat (stored s) mod ChunkSize)).
Proof.
  intros HC (pre & bk & Hcs & Hfull & Hle & _) Hadd.
  destruct s as [sz cs]. cbn [chunks] in Hcs. subst cs.
  rewrite stored_snoc by done. rewrite add_snoc in Hadd.
  destruct (Z.ltb_spec (Z.of_nat (length bk)) ChunkSize) as [Hlt|Hge].
  - injection Hadd as _ <- _.
    rewrite <- (Z.div_unique_pos _ ChunkSize (Z.of_nat (length pre))
                  (Z.of_nat (length bk))) by lia.
    rewrite <- (Z.mod_unique_pos _ ChunkSize (Z.of_nat (length pre))
                  (Z.of_nat (length bk))) by lia.
    by rewrite !Nat2Z.id.
  - destruct (wrap_size_t (UINT32_MAX - ChunkSize) <=? wrap32 (sz + 1));
      [discriminate|].
    destruct (max_size <? ChunkSize); [discriminate|].
    injection Hadd as _ <- _.
    rewrite <- (Z.div_unique_pos _ ChunkSize (Z.of_nat (S (length pre))) 0)
      by lia.
    rewrite <- (Z.mod_unique_pos _ ChunkSize (Z.of_nat (S (length pre))) 0)
      by lia.
    by rewrite Nat2Z.id.
Qed.

Lemma add_seq_ref_locations vs s s' rs (k : nat) r idx :
  0 < ChunkSize → shape ChunkSize s →
  add_seq ChunkSize max_size s vs = Done (s', rs) →
  rs !! k = Some (r, idx) →
  r = mkRef (Z.to_nat (Z.of_nat (stored s + k) / ChunkSize))
        (Z.to_nat (Z.of_nat (stored s + k) mod ChunkSize)).
Proof.
  intros HC. revert s rs k.
  induction vs as [|v vs IH]; intros s rs k Hsh Hseq Hk.
  - injection Hseq as _ <-. done.
  - apply add_seq_cons_inv in Hseq as (s1 & [r1 i1] & rs' & Hadd & Hseq & ->).
    destruct k as [|k].
    + injection Hk as -> ->. rewrite Nat.add_0_r.
      by eapply add_ref_location.
    + cbn in Hk.
      rewrite (IH s1 rs' k (add_shape _ _ _ _ HC Hsh Hadd) Hseq Hk).
      rewrite (stored_add _ _ _ _ Hadd).
      by replace (S (stored s) + k)%nat with (stored s + S k)%nat by lia.
Qed.

(** As long as the counter stays below the guard's threshold a
    sequence of [add] calls runs to completion. *)
Lemma add_seq_succeeds vs s :
  0 < ChunkSize ≤ UINT32_MAX → ChunkSize ≤ max_size →
  shape ChunkSize s → guarded ChunkSize s →
  size_ s + Z.of_nat (length vs) < UINT32_MAX - ChunkSize →
  ∃ s' rs, add_seq ChunkSize max_size s vs = Done (s', rs).
Proof.
  intros HC Hmax. revert s.
  induction vs as [|v vs IH]; intros s Hsh Hg Hlen; [by eexists _, _|].
  destruct (shape_guarded_size s HC Hsh Hg) as [Hsz _].
  assert (∃ s1 ri, add ChunkSize max_size s v = Done (s1, ri))
    as (s1 & ri & Hadd).
  { destruct Hsh as (pre & bk & Hcs & _).
    destruct s as [sz cs]. cbn [chunks size_] in *. subst cs.
    rewrite add_snoc.
    destruct (Z.of_nat (length bk) <? ChunkSize); [by eexists _, _|].
    rewrite guard_small, wrap32_small by (cbn [length] in Hlen; lia).
    destruct (Z.leb_spec (UINT32_MAX - ChunkSize) (sz + 1));
      [cbn [length] in Hlen; lia|].
    destruct (Z.ltb_spec max_size ChunkSize); [lia|by eexists _, _]. }
  assert (shape ChunkSize s1) as Hsh1
    by exact (add_shape _ _ _ _ (proj1 HC) Hsh Hadd).
  assert (guarded ChunkSize s1) as Hg1
    by exact (add_guarded _ _ _ _ HC Hsh Hg Hadd).
  destruct (shape_guarded_size s1 HC Hsh1 Hg1) as [Hsz1 _].
  rewrite (stored_add _ _ _ _ Hadd) in Hsz1.
  destruct (IH s1 Hsh1 Hg1) as (s' & rs & Hseq).
  { cbn [length] in Hlen. lia. }
  exists s', (ri :: rs). cbn [add_seq]. rewrite Hadd. cbn.
  rewrite Hseq. done.
Qed.

(** ** Stores built from scratch *)

Lemma build_inv reserve vs s rs :
  build ChunkSize max_size reserve vs = Done (s, rs) →
  new ChunkSize max_size reserve = Done (@mkChunkedVector T 0 [[]])
  ∧ 0 < wrap_size_t (UINT32_MAX - ChunkSize)
  ∧ add_seq ChunkSize max_size (mkChunkedVector 0 [[]]) vs = Done (s, rs).
Proof.
  unfold build.
  destruct (new ChunkSize max_size reserve) as [s0| | |] eqn:Hnew; cbn;
    [|done..].
  apply new_done in Hnew as (-> & ? & _). done.
Qed.

(** A store exists only if the constructor's [reserve] did not throw. *)
Lemma build_max_size reserve vs s rs :
  build ChunkSize max_size reserve vs = Done (s, rs) →
  ChunkSize ≤ max_size.
Proof.
  intros (Hnew & _)%build_inv. by apply new_done in Hnew as (_ & _ & ?).
Qed.

Lemma build_concat reserve vs s rs :
  build ChunkSize max_size reserve vs = Done (s, rs) → concat (chunks s) = vs.
Proof. intros (_ & _ & Hseq)%build_inv. by apply add_seq_concat in Hseq. Qed.

Lemma build_stored reserve vs s rs :
  build ChunkSize max_size reserve vs = Done (s, rs) → stored s = length vs.
Proof. unfold stored. by intros ->%build_concat. Qed.

Lemma build_shape reserve vs s rs :
  0 < ChunkSize →
  build ChunkSize max_size reserve vs = Done (s, rs) → shape ChunkSize s.
Proof.
  intros HC (Hnew & _ & Hseq)%build_inv.
  eapply add_seq_shape; [done| |done]. by eapply new_shape.
Qed.

Lemma build_guarded reserve vs s rs :
  0 < ChunkSize ≤ UINT32_MAX →
  build ChunkSize max_size reserve vs = Done (s, rs) →
  guarded ChunkSize s ∧ ChunkSize < UINT32_MAX.
Proof.
  intros HC (Hnew & Hpos & Hseq)%build_inv. split.
  - eapply add_seq_inv; [done| |done]. eapply new_shape; [lia|done].
  - rewrite guard_small in Hpos by lia. lia.
Qed.

(** The counter of a built store is the number of [add] calls, and one
    more element still has a representable index. *)
Lemma build_size reserve vs s rs :
  0 < ChunkSize ≤ UINT32_MAX →
  build ChunkSize max_size reserve vs = Done (s, rs) →
  size_ s = Z.of_nat (length vs) ∧ size_ s + 1 ≤ UINT32_MAX.
Proof.
  intros HC Hb.
  assert (shape ChunkSize s) as Hsh by (eapply build_shape; [lia|done]).
  destruct (build_guarded _ _ _ _ HC Hb) as [Hg HltC].
  destruct (shape_guarded_size s HC Hsh Hg) as [Hsz _].
  rewrite <- (build_stored _ _ _ _ Hb). split; [done|].
  rewrite Hsz. destruct Hsh as (pre & bk & Hcs & Hfull & Hle & _).
  destruct (Hg pre bk Hcs) as [->|Hlt];
    destruct s as [sz cs]; cbn [chunks] in Hcs; subst cs;
    rewrite stored_snoc by done; cbn [length]; lia.
Qed.

Lemma build_succeeds reserve vs :
  0 < ChunkSize ≤ UINT32_MAX → ChunkSize ≤ max_size →
  Z.of_nat (length vs) < UINT32_MAX - ChunkSize →
  ∃ s rs, build ChunkSize max_size reserve vs = Done (s, rs).
Proof.
  intros HC Hmax Hlen.
  pose proof (new_small reserve ltac:(lia) Hmax) as Hnew.
  destruct (new_shape _ _ (proj1 HC) Hnew) as [Hsh Hg].
  destruct (add_seq_succeeds vs _ HC Hmax Hsh Hg) as (s & rs & Hseq);
    [cbn [size_]; lia|].
  exists s, rs. unfold build. rewrite Hnew. done.
Qed.

Lemma foldl_concat {A : Type} (fn : A → T → A) (cs : list (list T)) a :
  foldl (λ acc c, foldl fn acc c) a cs = foldl fn a (concat cs).
Proof.
  revert a. induction cs as [|c cs IH]; intros a; [done|].
  cbn [foldl concat]. by rewrite foldl_app, IH.
Qed.



(** While the first chunk has room [add] consults no guard: the values
    go to that chunk and the counter is incremented as a [uint32_t]. *)
Lemma add_seq_first_chunk vs bk sz :
  0 ≤ sz ≤ UINT32_MAX →
  Z.of_nat (length bk) + Z.of_nat (length vs) ≤ ChunkSize →
  ∃ rs,
    add_seq ChunkSize max_size (mkChunkedVector sz [bk]) vs
    = Done (mkChunkedVector (wrap32 (sz + Z.of_nat (length vs))) [bk ++ vs],
            rs).
Proof.
  revert bk sz. induction vs as [|v vs IH]; intros bk sz Hsz Hlen.
  - exists []. cbn [add_seq length]. rewrite Z.add_0_r, app_nil_r.
    by rewrite wrap32_small.
  - cbn [length] in Hlen. cbn [add_seq].
    change [bk] with ([] ++ [bk]).
    rewrite (add_snoc sz [] bk v).
    destruct (Z.ltb_spec (Z.of_nat (length bk)) ChunkSize) as [_|?]; [|lia].
    cbn [mbind outcome_bind app].
    destruct (IH (bk ++ [v]) (wrap32 (sz + 1))) as (rs & ->).
    { unfold wrap32, UINT32_MAX.
      pose proof (Z.mod_pos_bound (sz + 1) (2 ^ 32)). lia. }
    { rewrite length_app. cbn [length]. lia. }
    eexists. cbn [mbind outcome_bind]. rewrite <- app_assoc. cbn [app].
    replace (wrap32 (wrap32 (sz + 1) + Z.of_nat (length vs)))
      with (wrap32 (sz + Z.of_nat (S (length vs)))); [reflexivity|].
    unfold wrap32. rewrite Zplus_mod_idemp_l. f_equal. lia.
Qed.

(** The guard of [addChunk] at counter 0. *)
Lemma guard_zero_iff :
  0 ≤ ChunkSize < 2 ^ 64 →
  wrap_size_t (UINT32_MAX - ChunkSize) ≤ 0 ↔ ChunkSize = UINT32_MAX.
Proof.
  intros HC.
  assert (0 ≤ wrap_size_t (UINT32_MAX - ChunkSize)) as Hnn
    by (unfold wrap_size_t; apply Z.mod_pos_bound; lia).
  destruct (decide (ChunkSize ≤ UINT32_MAX)) as [Hle|Hgt].
  - rewrite guard_small by lia. lia.
  - unfold UINT32_MAX in *.
    replace (wrap_size_t (2 ^ 32 - 1 - ChunkSize))
      with (2 ^ 32 - 1 - ChunkSize + 2 ^ 64); [lia|].
    unfold wrap_size_t. apply (Z.mod_unique _ _ (-1)); lia.
Qed.

Lemma build_first_chunk reserve (vs : list T) :
  0 < wrap_size_t (UINT32_MAX - ChunkSize) → ChunkSize ≤ max_size →
  Z.of_nat (length vs) ≤ ChunkSize →
  ∃ rs,
    build ChunkSize max_size reserve vs
    = Done (mkChunkedVector (wrap32 (Z.of_nat (length vs))) [vs], rs).
Proof.
  intros Hguard Hmax Hlen.
  assert (new ChunkSize max_size reserve = Done (@mkChunkedVector T 0 [[]]))
    as Hnew.
  { unfold new, addChunk. cbn [size_ chunks].
    destruct (Z.leb_spec (wrap_size_t (UINT32_MAX - ChunkSize)) 0); [lia|].
    destruct (Z.ltb_spec max_size ChunkSize); [lia|done]. }
  destruct (add_seq_first_chunk vs [] 0) as (rs & Hseq).
  { unfold UINT32_MAX. lia. }
  { cbn [length]. lia. }
  exists rs. unfold build. rewrite Hnew. cbn [mbind outcome_bind].
  by rewrite Hseq.
Qed.



Lemma Forall_concat_inv (P : T → Prop) (cs : list (list T)) :
  Forall P (concat cs) → Forall (Forall P) cs.
Proof.
  induction cs as [|c cs IH]; cbn [concat]; [constructor|].
  intros [Hc Hcs]%Forall_app. constructor; [done|by apply IH].
Qed.

(** Full chunks whose flattened contents are copies of [x] are copies
    of one chunk of [x]. *)
Lemma chunks_of_replicate (n m : nat) x pre bk :
  Forall (λ c, length c = m) pre → length bk = m →
  concat (pre ++ [bk]) = replicate n x →
  pre ++ [bk] = replicate (S (length pre)) (replicate m x).
Proof.
  intros Hfull Hbk Hcat. symmetry. apply replicate_as_Forall_2.
  - rewrite length_app. cbn. lia.
  - assert (Forall (Forall (x =.)) (pre ++ [bk])) as Hall.
    { apply Forall_concat_inv. rewrite Hcat. apply Forall_replicate_eq. }
    assert (Forall (λ c, length c = m) (pre ++ [bk])) as Hlen.
    { apply Forall_app. split; [done|]. by apply Forall_singleton. }
    clear -Hall Hlen. induction Hall as [|c cs Hc _ IH]; [constructor|].
    apply Forall_cons in Hlen as [Hm Hlen].
    constructor; [|by apply IH].
    by apply replicate_as_Forall_2.
Qed.


End ChunkedVectorFacts.

(** * The contracts of ChunkedVector *)

Local Open Scope Z_scope.


(** The scenario of the specification: chunk size 2 and three values. *)
Example build_abc :
  build 2 max_size_string 0 ["a"; "b"; "c"]%string
  = Done (mkChunkedVector 3 [["a"; "b"]; ["c"]]%string,
          [(mkRef 0 0, 0); (mkRef 0 1, 1); (mkRef 1 0, 2)]).
Proof. reflexivity. Qed.

Example index_abc :
  operator_index 2 (mkChunkedVector 3 [["a"; "b"]; ["c"]]%string) <$> [0; 1; 2]
  = [Done "a"; Done "b"; Done "c"]%string.
Proof. reflexivity. Qed.

(** Past the end the access is unchecked. *)
Example index_abc_past_end :
  operator_index 2 (mkChunkedVector 3 [["a"; "b"]; ["c"]]%string) 3
  = Undefined.
Proof. reflexivity. Qed.

(** C1. After any sequence of [add] calls on a fresh ChunkedVector,
    [operator[]] at an index [i] below [size()] returns the value passed
    to the [i]-th [add] call. The element sits in chunk [i / ChunkSize]
    at offset [i % ChunkSize], which is where the reference returned by
    the [i]-th [add] points; further [add] calls change neither what
    [operator[]] returns at [i] nor what that slot holds. *)
Theorem index_returns_ith_added {T : Type} (ChunkSize max_size reserve : Z)
    (values : list T) (s : ChunkedVector T) (rs : list (elem_ref * Z))
    (i : Z) :
  0 < ChunkSize →
  build ChunkSize max_size reserve values = Done (s, rs) →
  0 ≤ i < size s →
  let slot := mkRef (Z.to_nat (i / ChunkSize)) (Z.to_nat (i mod ChunkSize)) in
  ∃ v : T,
    values !! Z.to_nat i = Some v
    ∧ operator_index ChunkSize s i = Done v
    ∧ rs.*1 !! Z.to_nat i = Some slot
    ∧ deref s slot = Some v
    ∧ ∀ later s' rs',
        add_seq ChunkSize max_size s later = Done (s', rs') →
        operator_index ChunkSize s' i = Done v ∧ deref s' slot = Some v.
Proof.
  intros HC Hb Hi slot.
  pose proof (build_shape _ _ _ _ _ _ HC Hb) as Hsh.
  pose proof (build_concat _ _ _ _ _ _ Hb) as Hcat.
  assert (Z.to_nat i < length values)%nat as Hlt.
  { destruct Hsh as (_ & _ & _ & _ & _ & _ & Hsz).
    unfold size in Hi. rewrite Hsz in Hi.
    rewrite (build_stored _ _ _ _ _ _ Hb) in Hi. unfold wrap32 in Hi.
    pose proof (Z.mod_le (Z.of_nat (length values)) (2 ^ 32)). lia. }
  destruct (lookup_lt_is_Some_2 values _ Hlt) as [v Hv].
  assert (operator_index ChunkSize s i = Done v) as Hidx.
  { rewrite operator_index_concat by (done || lia). by rewrite Hcat, Hv. }
  assert (deref s slot = Some v) as Hslot.
  { unfold operator_index in Hidx. unfold deref, slot.
    cbn [ref_chunk ref_slot].
    destruct (ChunkSize =? 0); [done|].
    destruct (chunks s !! Z.to_nat (i / ChunkSize)) as [c|]; [|done]. cbn.
    destruct (c !! Z.to_nat (i mod ChunkSize)) as [e|] eqn:He; [|done].
    by injection Hidx as ->. }
  assert (rs.*1 !! Z.to_nat i = Some slot) as Href.
  { apply build_inv in Hb as (Hnew & _ & Hseq).
    pose proof (Forall2_length _ _ _ (add_seq_refs _ _ _ _ _ _ Hseq)) as Hlen.
    destruct (lookup_lt_is_Some_2 rs (Z.to_nat i)) as [[r idx] Hr]; [lia|].
    rewrite list_lookup_fmap, Hr. cbn. f_equal.
    rewrite (add_seq_ref_locations _ _ _ _ _ _ _ _ _ HC
               (proj1 (new_shape _ _ _ _ HC Hnew)) Hseq Hr).
    unfold stored, slot. cbn [chunks concat app length].
    rewrite Nat.add_0_l, Z2Nat.id by lia. done. }
  exists v. do 4 (split; [done|]).
  intros later s' rs' Hseq. split.
  - rewrite operator_index_concat; [|done| |lia].
    + rewrite (add_seq_concat _ _ _ _ _ _ Hseq), Hcat.
      by rewrite (lookup_app_l_Some _ _ _ _ Hv).
    + by eapply add_seq_shape.
  - by eapply add_seq_deref_stable.
Qed.

Lemma index_returns_ith_added_witness :
  let slot := mkRef (Z.to_nat (2 / 2)) (Z.to_nat (2 mod 2)) in
  ∃ v : string,
    ["a"; "b"; "c"]%string !! Z.to_nat 2 = Some v
    ∧ operator_index 2 (mkChunkedVector 3 [["a"; "b"]; ["c"]]%string) 2
      = Done v
    ∧ [(mkRef 0 0, 0); (mkRef 0 1, 1); (mkRef 1 0, 2)].*1 !! Z.to_nat 2
      = Some slot
    ∧ deref (mkChunkedVector 3 [["a"; "b"]; ["c"]]%string) slot = Some v
    ∧ ∀ later s' rs',
        add_seq 2 max_size_string
          (mkChunkedVector 3 [["a"; "b"]; ["c"]]%string) later
        = Done (s', rs') →
        operator_index 2 s' 2 = Done v ∧ deref s' slot = Some v.
Proof.
  apply (index_returns_ith_added 2 max_size_string 0 ["a"; "b"; "c"]%string
           (mkChunkedVector 3 [["a"; "b"]; ["c"]]%string)
           [(mkRef 0 0, 0); (mkRef 0 1, 1); (mkRef 1 0, 2)] 2).
  - lia.
  - reflexivity.
  - cbn. lia.
Defined.




(** C3, as stated, fails for N = 0: the constructor has already
    allocated one chunk, and [ceil (0 / 2)] is 0. *)
Lemma chunk_count_of_empty_store :
  ∃ (s : ChunkedVector string) rs,
    build 2 max_size_string 0 [] = Done (s, rs)
    ∧ Z.of_nat (length (chunks s)) = 1
    ∧ ceil_div (Z.of_nat (length (@nil string))) 2 = 0
    ∧ Z.of_nat (length (chunks s))
      ≠ ceil_div (Z.of_nat (length (@nil string))) 2.
Proof. exists (mkChunkedVector 0 [[]]), []. by repeat split. Qed.

(** C3, amended. After constructing a ChunkedVector with chunk size C
    and inserting N elements, the number of allocated chunks is
    [max 1 (ceil (N / C))]: the constructor allocates the first chunk,
    and [ceil (N / C)] chunks exist as soon as N >= 1.  Every chunk that
    has a successor holds exactly C elements, and an [add] allocates a
    chunk only when the tail chunk holds exactly C elements. *)
Theorem chunk_count {T : Type} (ChunkSize max_size reserve : Z)
    (values : list T) (s : ChunkedVector T) (rs : list (elem_ref * Z)) :
  0 < ChunkSize →
  build ChunkSize max_size reserve values = Done (s, rs) →
  Z.of_nat (length (chunks s))
  = Z.max 1 (ceil_div (Z.of_nat (length values)) ChunkSize)
  ∧ inner_chunks_full ChunkSize s
  ∧ ∀ v s' ri,
      add ChunkSize max_size s v = Done (s', ri) →
      length (chunks s') = length (chunks s)
      ∨ length (chunks s') = S (length (chunks s))
        ∧ ∃ bk, last (chunks s) = Some bk
                ∧ Z.of_nat (length bk) = ChunkSize.
Proof.
  intros HC Hb.
  pose proof (build_shape _ _ _ _ _ _ HC Hb) as Hsh.
  pose proof (build_stored _ _ _ _ _ _ Hb) as Hst.
  destruct Hsh as (pre & bk & Hcs & Hfull & Hle & Hne & _).
  assert (Z.of_nat (length values)
          = Z.of_nat (length pre) * ChunkSize + Z.of_nat (length bk)) as Hn.
  { rewrite <- Hst. destruct s as [sz cs]. cbn [chunks] in Hcs. subst cs.
    by apply stored_snoc. }
  split; [|split].
  - rewrite Hcs, length_app, Nat2Z.inj_add. cbn [length].
    unfold ceil_div. rewrite Hn.
    destruct (decide (length bk = 0)%nat) as [Hz|Hnz].
    + destruct Hne as [->|?]; [|lia]. rewrite Hz. cbn [length].
      rewrite Z.div_small by lia. lia.
    + assert ((Z.of_nat (length pre) * ChunkSize + Z.of_nat (length bk)
                + ChunkSize - 1) / ChunkSize
              = Z.of_nat (length pre) + 1) as ->; [|lia].
      symmetry.
      apply (Z.div_unique_pos _ _ _ (Z.of_nat (length bk) - 1)); lia.
  - intros i c Hi Hlen. rewrite Hcs in Hi, Hlen.
    rewrite length_app in Hlen. cbn [length] in Hlen.
    rewrite lookup_app_l in Hi by lia.
    by apply (Forall_lookup_1 _ _ _ _ Hfull Hi).
  - intros v s' ri Hadd.
    apply add_chunks_step in Hadd as (pre' & bk' & Hcs' & Hstep).
    rewrite Hcs in Hcs'. apply app_inj_tail in Hcs' as [<- <-].
    destruct Hstep as [[_ ->]|(Hge & _ & ->)].
    + left. by rewrite Hcs, !length_app.
    + right. rewrite Hcs, !length_app. cbn [length]. split; [lia|].
      exists bk. rewrite last_snoc. split; [done|lia].
Qed.

Lemma chunk_count_witness :
  Z.of_nat (length [["a"; "b"]; ["c"]]%string)
  = Z.max 1 (ceil_div (Z.of_nat (length ["a"; "b"; "c"]%string)) 2)
  ∧ inner_chunks_full 2 (mkChunkedVector 3 [["a"; "b"]; ["c"]]%string)
  ∧ ∀ v s' ri,
      add 2 max_size_string (mkChunkedVector 3 [["a"; "b"]; ["c"]]%string) v
      = Done (s', ri) →
      length (chunks s') = length [["a"; "b"]; ["c"]]%string
      ∨ length (chunks s') = S (length [["a"; "b"]; ["c"]]%string)
        ∧ ∃ bk, last [["a"; "b"]; ["c"]]%string = Some bk
                ∧ Z.of_nat (length bk) = 2.
Proof.
  apply (chunk_count 2 max_size_string 0 ["a"; "b"; "c"]%string
           (mkChunkedVector 3 [["a"; "b"]; ["c"]]%string)
           [(mkRef 0 0, 0); (mkRef 0 1, 1); (mkRef 1 0, 2)]).
  - lia.
  - reflexivity.
Defined.










(** C4, as stated, fails. 4294967292 [add] calls on a
    [ChunkedVector<string, 2>] fill 2147483646 chunks; the next [add]
    aborts, although the element would get index 4294967292 and the
    count would become 4294967293, both below the largest [uint32_t]. *)
Lemma add_aborts_below_index_limit :
  let s := mkChunkedVector 4294967292
             (replicate (Z.to_nat 2147483646) ["x"; "x"]%string) in
  (∃ rs, build 2 max_size_string 0
           (replicate (Z.to_nat 4294967292) "x"%string)
         = Done (s, rs))
  ∧ add 2 max_size_string s "x"%string = Aborted
  ∧ size s + 1 ≤ UINT32_MAX
  ∧ ¬ (add 2 max_size_string s "x"%string = Aborted
       ↔ UINT32_MAX < size s + 1).
Proof.
  intros s.
  assert (0 < 2 ≤ UINT32_MAX) as HC by (unfold UINT32_MAX; lia).
  pose proof max_size_string_large as Hlarge.
  destruct (build_succeeds 2 max_size_string 0
              (replicate (Z.to_nat 4294967292) "x"%string) HC ltac:(lia))
    as (s0 & rs & Hb).
  { rewrite length_replicate, Z2Nat.id by lia. unfold UINT32_MAX. lia. }
  destruct (build_size _ _ _ _ _ _ HC Hb) as [Hsz Hmax].
  rewrite length_replicate, Z2Nat.id in Hsz by lia.
  assert (s0 = s) as Hs0.
  { assert (0 < 2) as HC0 by lia.
    pose proof (build_shape _ _ _ _ _ _ HC0 Hb) as Hsh.
    pose proof (build_stored _ _ _ _ _ _ Hb) as Hst.
    pose proof (build_concat _ _ _ _ _ _ Hb) as Hcat.
    rewrite length_replicate in Hst.
    destruct Hsh as (pre & bk & Hcs & Hfull & Hle & Hne & _).
    destruct s0 as [sz cs]. cbn [chunks size_] in *. subst cs sz.
    apply (f_equal Z.of_nat) in Hst.
    rewrite (stored_snoc 2), Z2Nat.id in Hst by (done || lia).
    assert (length bk = 2%nat) as Hbk.
    { destruct Hne as [->|Hpos]; cbn [length] in Hst; lia. }
    unfold s. f_equal.
    rewrite (chunks_of_replicate (Z.to_nat 4294967292) 2 "x"%string pre bk);
      [|..|exact Hcat].
    - change (replicate 2 "x"%string) with ["x"; "x"]%string.
      f_equal. lia.
    - eapply Forall_impl; [exact Hfull|]. cbn. lia.
    - done. }
  subst s0.
  assert (add 2 max_size_string s "x"%string = Aborted) as Habort.
  { unfold s.
    replace (Z.to_nat 2147483646) with (S (Z.to_nat 2147483645)) by lia.
    rewrite replicate_S_end, add_snoc. cbn [length].
    destruct (Z.ltb_spec (Z.of_nat 2) 2) as [?|_]; [lia|].
    rewrite guard_small, wrap32_small by (unfold UINT32_MAX in *; lia).
    destruct (Z.leb_spec (UINT32_MAX - 2) (4294967292 + 1)) as [_|Hlt];
      [done|].
    unfold UINT32_MAX in Hlt. lia. }
  split; [by exists rs|]. split; [exact Habort|]. split; [exact Hmax|].
  intros [Himp _]. specialize (Himp Habort). unfold size in Himp. lia.
Qed.

(** C4, amended. On a store built by the constructor and [add] calls,
    [add] aborts if and only if the tail chunk is full and the element
    count after the increment is at least [UINT32_MAX - ChunkSize]; the
    guard fires while the new element's index is still representable.
    In every other case [add] returns normally: the value is appended,
    the count grows by one and the index returned is the old count. *)
Theorem add_aborts_iff_guard {T : Type} (ChunkSize max_size reserve : Z)
    (values : list T) (s : ChunkedVector T) (rs : list (elem_ref * Z))
    (v : T) :
  0 < ChunkSize ≤ UINT32_MAX →
  build ChunkSize max_size reserve values = Done (s, rs) →
  (add ChunkSize max_size s v = Aborted
   ↔ (∃ bk, last (chunks s) = Some bk ∧ Z.of_nat (length bk) = ChunkSize)
     ∧ UINT32_MAX - ChunkSize ≤ size s + 1)
  ∧ (add ChunkSize max_size s v ≠ Aborted →
     ∃ s' r,
       add ChunkSize max_size s v = Done (s', (r, size s))
       ∧ size s' = size s + 1
       ∧ concat (chunks s') = concat (chunks s) ++ [v])
  ∧ size s + 1 ≤ UINT32_MAX.
Proof.
  intros HC Hb.
  assert (0 < ChunkSize) as HC0 by lia.
  pose proof (build_shape _ _ _ _ _ _ HC0 Hb) as Hsh.
  destruct (build_size _ _ _ _ _ _ HC Hb) as [_ Hmax].
  destruct (build_guarded _ _ _ _ _ _ HC Hb) as [Hg _].
  destruct (shape_guarded_size _ s HC Hsh Hg) as [Hsz _].
  pose proof (build_max_size _ _ _ _ _ _ Hb) as Hms.
  destruct Hsh as (pre & bk & Hcs & Hfull & Hle & Hne & _).
  assert (0 ≤ size_ s) as Hnn by lia.
  destruct s as [sz cs]. unfold size in *. cbn [chunks size_] in *.
  clear Hsz Hg Hb. subst cs.
  rewrite add_snoc, last_snoc, guard_small, wrap32_small by lia.
  destruct (Z.ltb_spec (Z.of_nat (length bk)) ChunkSize) as [Hlt|Hge].
  - repeat apply conj; [done| |intros _|done].
    + intros [(bk' & [= <-] & Hfullbk) _]. lia.
    + eexists _, _. split; [done|]. cbn [size_ chunks].
      by rewrite !concat_snoc, app_assoc.
  - destruct (Z.leb_spec (UINT32_MAX - ChunkSize) (sz + 1)) as [Hgd|Hgd].
    + repeat apply conj; [|done|done|done].
      intros _. split; [|done]. exists bk. split; [done|lia].
    + destruct (Z.ltb_spec max_size ChunkSize) as [?|_]; [lia|].
      repeat apply conj; [done| |intros _|done].
      * intros [_ ?]. lia.
      * eexists _, _. split; [done|]. cbn [size_ chunks].
        rewrite concat_snoc, concat_app. cbn [concat].
        by rewrite app_nil_r, app_assoc.
Qed.

Lemma add_aborts_iff_guard_witness :
  (add 2 max_size_string
     (mkChunkedVector 3 [["a"; "b"]; ["c"]]%string) "d"%string = Aborted
   ↔ (∃ bk, last [["a"; "b"]; ["c"]]%string = Some bk
            ∧ Z.of_nat (length bk) = 2)
     ∧ UINT32_MAX - 2
       ≤ size (mkChunkedVector 3 [["a"; "b"]; ["c"]]%string) + 1)
  ∧ (add 2 max_size_string
       (mkChunkedVector 3 [["a"; "b"]; ["c"]]%string) "d"%string
     ≠ Aborted →
     ∃ s' r,
       add 2 max_size_string
         (mkChunkedVector 3 [["a"; "b"]; ["c"]]%string) "d"%string
       = Done (s', (r, size (mkChunkedVector 3 [["a"; "b"]; ["c"]]%string)))
       ∧ size s' = size (mkChunkedVector 3 [["a"; "b"]; ["c"]]%string) + 1
       ∧ concat (chunks s')
         = concat [["a"; "b"]; ["c"]]%string ++ ["d"%string])
  ∧ size (mkChunkedVector 3 [["a"; "b"]; ["c"]]%string) + 1 ≤ UINT32_MAX.
Proof.
  apply (add_aborts_iff_guard 2 max_size_string 0 ["a"; "b"; "c"]%string
           (mkChunkedVector 3 [["a"; "b"]; ["c"]]%string)
           [(mkRef 0 0, 0); (mkRef 0 1, 1); (mkRef 1 0, 2)] "d"%string).
  - unfold UINT32_MAX. lia.
  - reflexivity.
Defined.

(** * Further properties of ChunkedVector *)

Section ChunkedVectorMore.
Context {T : Type}.
Variable ChunkSize : Z.
Variable max_size : Z.

Implicit Types (s : ChunkedVector T) (v x : T) (pre : list (list T))
  (bk : list T).

Lemma ceil_div_bounds (n : Z) :
  0 < ChunkSize → 0 ≤ n →
  ChunkSize * (ceil_div n ChunkSize - 1) < n ≤ ChunkSize * ceil_div n ChunkSize.
Proof.
  intros HC Hn. unfold ceil_div.
  pose proof (Z.div_mod (n + ChunkSize - 1) ChunkSize) as Hdm.
  pose proof (Z.mod_pos_bound (n + ChunkSize - 1) ChunkSize HC) as Hr.
  lia.
Qed.

Lemma capacity_ge :
  0 < ChunkSize → ChunkSize ≤ capacity ChunkSize.
Proof. intros HC. unfold capacity. nia. Qed.

Lemma capacity_lt :
  0 < ChunkSize < UINT32_MAX → capacity ChunkSize < UINT32_MAX.
Proof.
  intros HC. unfold capacity.
  pose proof (ceil_div_bounds (UINT32_MAX - ChunkSize - 1)
                ltac:(lia) ltac:(lia)) as Hb.
  destruct (Z.max_spec 1 (ceil_div (UINT32_MAX - ChunkSize - 1) ChunkSize))
    as [[Hlt ->]|[Hge ->]]; nia.
Qed.

(** Below the capacity the guard does not fire at a chunk boundary. *)
Lemma capacity_guard_passes (k : Z) :
  0 < ChunkSize < UINT32_MAX → 1 ≤ k →
  k * ChunkSize < capacity ChunkSize →
  k * ChunkSize + 1 < UINT32_MAX - ChunkSize.
Proof.
  intros HC Hk Hlt. unfold capacity in Hlt.
  pose proof (ceil_div_bounds (UINT32_MAX - ChunkSize - 1)
                ltac:(lia) ltac:(lia)) as Hb.
  destruct (Z.max_spec 1 (ceil_div (UINT32_MAX - ChunkSize - 1) ChunkSize))
    as [[Hq Hmax]|[Hq Hmax]]; rewrite Hmax in Hlt.
  - assert (k ≤ ceil_div (UINT32_MAX - ChunkSize - 1) ChunkSize - 1) by nia.
    nia.
  - nia.
Qed.

(** A chunk boundary that passed the guard leaves room for a chunk. *)
Lemma capacity_guard_room (k : Z) :
  0 < ChunkSize < UINT32_MAX → 1 ≤ k →
  k * ChunkSize + 1 < UINT32_MAX - ChunkSize →
  k * ChunkSize + ChunkSize ≤ capacity ChunkSize.
Proof.
  intros HC Hk Hlt. unfold capacity.
  pose proof (ceil_div_bounds (UINT32_MAX - ChunkSize - 1)
                ltac:(lia) ltac:(lia)) as Hb.
  destruct (Z.max_spec 1 (ceil_div (UINT32_MAX - ChunkSize - 1) ChunkSize))
    as [[Hq ->]|[Hq ->]].
  - assert (k + 1 ≤ ceil_div (UINT32_MAX - ChunkSize - 1) ChunkSize) by nia.
    nia.
  - nia.
Qed.

(** On a well-shaped store whose chunks can be reserved [add] returns
    or aborts. *)
Lemma add_done_or_aborted s v :
  ChunkSize ≤ max_size → shape ChunkSize s →
  (∃ s' ri, add ChunkSize max_size s v = Done (s', ri))
  ∨ add ChunkSize max_size s v = Aborted.
Proof.
  intros Hmax (pre & bk & Hcs & _).
  destruct s as [sz cs]. cbn [chunks] in Hcs. subst cs.
  rewrite add_snoc.
  destruct (Z.ltb_spec max_size ChunkSize) as [?|_]; [lia|].
  repeat case_match; eauto.
Qed.

Lemma add_seq_done_or_aborted vs s :
  0 < ChunkSize → ChunkSize ≤ max_size → shape ChunkSize s →
  (∃ s' rs, add_seq ChunkSize max_size s vs = Done (s', rs))
  ∨ add_seq ChunkSize max_size s vs = Aborted.
Proof.
  intros HC Hmax. revert s. induction vs as [|v vs IH]; intros s Hsh.
  - left. by eexists _, _.
  - cbn [add_seq].
    destruct (add_done_or_aborted s v Hmax Hsh) as [(s1 & ri & Hadd)|Hadd];
      rewrite Hadd; cbn; [|by right].
    destruct (IH s1 (add_shape _ _ _ _ _ _ HC Hsh Hadd))
      as [(s' & rs & Hseq)|Hseq]; rewrite Hseq; cbn; [|by right].
    left. by eexists _, _.
Qed.

(** A sequence of [add] calls that keeps the number of elements within
    the capacity runs to completion. *)
Lemma add_seq_within_capacity vs s :
  0 < ChunkSize < UINT32_MAX → ChunkSize ≤ max_size →
  shape ChunkSize s → guarded ChunkSize s →
  size_ s + Z.of_nat (length vs) ≤ capacity ChunkSize →
  ∃ s' rs, add_seq ChunkSize max_size s vs = Done (s', rs).
Proof.
  intros HC Hms. assert (0 < ChunkSize ≤ UINT32_MAX) as HC' by lia. revert s.
  induction vs as [|v vs IH]; intros s Hsh Hg Hlen; [by eexists _, _|].
  destruct (shape_guarded_size _ s HC' Hsh Hg) as [Hsz Hmax].
  cbn [length] in Hlen.
  assert (∃ s1 ri, add ChunkSize max_size s v = Done (s1, ri))
    as (s1 & ri & Hadd).
  { destruct Hsh as (pre & bk & Hcs & Hfull & Hle & Hne & _).
    destruct s as [sz cs]. cbn [chunks size_] in *. subst cs.
    rewrite (stored_snoc ChunkSize) in Hsz by done.
    rewrite add_snoc.
    destruct (Z.ltb_spec (Z.of_nat (length bk)) ChunkSize) as [Hlt|Hge];
      [by eexists _, _|].
    pose proof (capacity_guard_passes (Z.of_nat (length pre) + 1) HC
                  ltac:(lia) ltac:(lia)) as Hpass.
    rewrite guard_small, wrap32_small by lia.
    destruct (Z.leb_spec (UINT32_MAX - ChunkSize) (sz + 1)); [lia|].
    destruct (Z.ltb_spec max_size ChunkSize); [lia|by eexists _, _]. }
  assert (shape ChunkSize s1) as Hsh1
    by exact (add_shape _ _ _ _ _ _ (proj1 HC) Hsh Hadd).
  assert (guarded ChunkSize s1) as Hg1
    by exact (add_guarded _ _ _ _ _ _ HC' Hsh Hg Hadd).
  destruct (shape_guarded_size _ s1 HC' Hsh1 Hg1) as [Hsz1 _].
  rewrite (stored_add _ _ _ _ _ _ Hadd) in Hsz1.
  destruct (IH s1 Hsh1 Hg1) as (s' & rs & Hseq); [lia|].
  exists s', (ri :: rs). cbn [add_seq]. rewrite Hadd. cbn.
  rewrite Hseq. done.
Qed.

(** One [add] leaves every chunk but the tail chunk alone and removes
    no chunk. *)
Lemma add_inner_chunks s v s' ri :
  add ChunkSize max_size s v = Done (s', ri) →
  (length (chunks s) ≤ length (chunks s'))%nat
  ∧ ∀ j : nat, (S j < length (chunks s))%nat →
      chunks s' !! j = chunks s !! j.
Proof.
  intros (pre & bk & Hcs & Hstep)%add_chunks_step. rewrite Hcs.
  destruct Hstep as [[_ ->]|(_ & _ & ->)]; rewrite !length_app; cbn [length].
  - split; [lia|]. intros j Hj. by rewrite !lookup_app_l by lia.
  - split; [lia|]. intros j Hj.
    rewrite (lookup_app_l (pre ++ [bk])) by (rewrite length_app; cbn; lia).
    done.
Qed.

Lemma add_seq_inner_chunks vs s s' rs :
  add_seq ChunkSize max_size s vs = Done (s', rs) →
  (length (chunks s) ≤ length (chunks s'))%nat
  ∧ ∀ j : nat, (S j < length (chunks s))%nat →
      chunks s' !! j = chunks s !! j.
Proof.
  apply (add_seq_preserves ChunkSize max_size
           (λ s1, (length (chunks s) ≤ length (chunks s1))%nat
                  ∧ ∀ j : nat, (S j < length (chunks s))%nat →
                      chunks s1 !! j = chunks s !! j)); [|done].
  intros s1 v s2 ri [Hlen Hin] Hadd.
  destruct (add_inner_chunks _ _ _ _ Hadd) as [Hlen' Hin'].
  split; [lia|]. intros j Hj. rewrite Hin' by lia. by apply Hin.
Qed.

End ChunkedVectorMore.

(** X1. The constructor, for every [ChunkSize] of a 64-bit [size_t]:
    it aborts exactly when [ChunkSize] is [UINT32_MAX], where the guard
    of [addChunk] compares [0 >= 0]; otherwise it throws
    [std::length_error] exactly when [ChunkSize] exceeds [max_size ()],
    from [reserve (ChunkSize)]; in every other case it returns the store
    with counter 0 and one empty chunk, whatever [reserve] is. *)
Theorem constructor_aborts_iff {T : Type} (ChunkSize max_size reserve : Z) :
  0 ≤ ChunkSize < 2 ^ 64 →
  (new (T:=T) ChunkSize max_size reserve = Aborted ↔ ChunkSize = UINT32_MAX)
  ∧ (new (T:=T) ChunkSize max_size reserve = Thrown
     ↔ ChunkSize ≠ UINT32_MAX ∧ max_size < ChunkSize)
  ∧ (ChunkSize ≠ UINT32_MAX → ChunkSize ≤ max_size →
     new ChunkSize max_size reserve = Done (@mkChunkedVector T 0 [[]])).
Proof.
  intros HC. pose proof (guard_zero_iff ChunkSize HC) as Hzero.
  unfold new, addChunk. cbn [size_ chunks].
  destruct (Z.leb_spec (wrap_size_t (UINT32_MAX - ChunkSize)) 0) as [Hle|Hlt].
  - assert (ChunkSize = UINT32_MAX) as Heq by (by apply Hzero).
    split; [done|]. split; [|done]. split; [done|]. by intros [? _].
  - assert (ChunkSize ≠ UINT32_MAX) as Hne by (intros ?%Hzero; lia).
    destruct (Z.ltb_spec max_size ChunkSize) as [Hms|Hms].
    + split; [done|]. split; [done|]. intros _ ?. lia.
    + split; [done|]. split; [|done]. split; [done|]. intros [_ ?]. lia.
Qed.

Lemma constructor_aborts_iff_witness :
  (new (T:=string) 2 max_size_string 8 = Aborted ↔ 2 = UINT32_MAX)
  ∧ (new (T:=string) 2 max_size_string 8 = Thrown
     ↔ 2 ≠ UINT32_MAX ∧ max_size_string < 2)
  ∧ (2 ≠ UINT32_MAX → 2 ≤ max_size_string →
     new 2 max_size_string 8 = Done (@mkChunkedVector string 0 [[]])).
Proof. apply (constructor_aborts_iff 2 max_size_string 8). lia. Defined.

(** The constructor at the two edges: [ChunkSize = UINT32_MAX] aborts,
    a [ChunkSize] above [max_size ()] throws. *)
Example constructor_aborts :
  new (T:=Ascii.ascii) UINT32_MAX max_size_char 0 = Aborted.
Proof. reflexivity. Qed.

Example constructor_throws :
  new (T:=Ascii.ascii) (2 ^ 63) max_size_char 0 = Thrown.
Proof. reflexivity. Qed.

(** X2. A [ChunkedVector<T, ChunkSize>] whose chunks can be reserved
    accepts exactly [capacity ChunkSize] elements: construction
    followed by N [add] calls returns if [ChunkSize] is at most
    [max_size ()] and N is at most the capacity, aborts if N is above
    the capacity, and throws from the constructor if [ChunkSize]
    exceeds [max_size ()]. The capacity is at least one chunk and
    stays below [UINT32_MAX]. *)
Theorem build_capacity {T : Type} (ChunkSize max_size reserve : Z)
    (values : list T) :
  0 < ChunkSize < UINT32_MAX →
  ((∃ s rs, build ChunkSize max_size reserve values = Done (s, rs))
   ↔ ChunkSize ≤ max_size
     ∧ Z.of_nat (length values) ≤ capacity ChunkSize)
  ∧ (ChunkSize ≤ max_size →
     capacity ChunkSize < Z.of_nat (length values) →
     build ChunkSize max_size reserve values = Aborted)
  ∧ (max_size < ChunkSize →
     build ChunkSize max_size reserve values = Thrown)
  ∧ ChunkSize ≤ capacity ChunkSize < UINT32_MAX.
Proof.
  intros HC.
  assert (0 < ChunkSize ≤ UINT32_MAX) as HC' by lia.
  assert (0 < ChunkSize) as HC0 by lia.
  assert (ChunkSize ≤ max_size →
          new ChunkSize max_size reserve = Done (@mkChunkedVector T 0 [[]]))
    as Hnew by (apply new_small; lia).
  assert ((∃ s rs, build ChunkSize max_size reserve values = Done (s, rs))
          ↔ ChunkSize ≤ max_size
            ∧ Z.of_nat (length values) ≤ capacity ChunkSize) as Hiff.
  { split.
    - intros (s & rs & Hb).
      split; [exact (build_max_size _ _ _ _ _ _ Hb)|].
      pose proof (build_shape _ _ _ _ _ _ HC0 Hb) as Hsh.
      destruct (build_guarded _ _ _ _ _ _ HC' Hb) as [Hg _].
      rewrite <- (build_stored _ _ _ _ _ _ Hb).
      destruct Hsh as (pre & bk & Hcs & Hfull & Hle & _).
      destruct s as [sz cs]. cbn [chunks] in Hcs. subst cs.
      rewrite (stored_snoc ChunkSize) by done.
      destruct (Hg pre bk eq_refl) as [->|Hlt].
      + pose proof (capacity_ge ChunkSize HC0). cbn [length]. lia.
      + destruct pre as [|c pre].
        { pose proof (capacity_ge ChunkSize HC0). cbn [length]. lia. }
        pose proof (capacity_guard_room ChunkSize
                      (Z.of_nat (length (c :: pre))) HC
                      ltac:(cbn [length]; lia) Hlt). lia.
    - intros [Hms Hlen]. specialize (Hnew Hms).
      destruct (new_shape _ _ _ _ HC0 Hnew) as [Hsh0 Hg0].
      destruct (add_seq_within_capacity ChunkSize max_size values _ HC Hms
                  Hsh0 Hg0) as (s & rs & Hseq); [cbn [size_]; lia|].
      exists s, rs. unfold build. rewrite Hnew. done. }
  split; [done|]. split; [|split].
  - intros Hms Hlen. specialize (Hnew Hms).
    destruct (new_shape _ _ _ _ HC0 Hnew) as [Hsh0 Hg0].
    unfold build. rewrite Hnew. cbn [mbind outcome_bind].
    destruct (add_seq_done_or_aborted ChunkSize max_size values _ HC0 Hms
                Hsh0) as [(s & rs & Hseq)|Hseq]; [|done].
    assert (Z.of_nat (length values) ≤ capacity ChunkSize); [|lia].
    apply Hiff. exists s, rs. unfold build. rewrite Hnew. done.
  - intros Hms. unfold build, new, addChunk. cbn [size_ chunks].
    rewrite guard_small by lia.
    destruct (Z.leb_spec (UINT32_MAX - ChunkSize) 0); [lia|].
    destruct (Z.ltb_spec max_size ChunkSize); [done|lia].
  - split; [by apply capacity_ge|by apply capacity_lt].
Qed.

Lemma build_capacity_witness :
  ((∃ s rs, build 2 max_size_string 0 ["a"; "b"; "c"]%string = Done (s, rs))
   ↔ 2 ≤ max_size_string
     ∧ Z.of_nat (length ["a"; "b"; "c"]%string) ≤ capacity 2)
  ∧ (2 ≤ max_size_string →
     capacity 2 < Z.of_nat (length ["a"; "b"; "c"]%string) →
     build 2 max_size_string 0 ["a"; "b"; "c"]%string = Aborted)
  ∧ (max_size_string < 2 →
     build 2 max_size_string 0 ["a"; "b"; "c"]%string = Thrown)
  ∧ 2 ≤ capacity 2 < UINT32_MAX.
Proof.
  apply (build_capacity 2 max_size_string 0 ["a"; "b"; "c"]%string).
  unfold UINT32_MAX. lia.
Defined.

(** The capacity for chunks of 2, and for the largest chunk size the
    constructor accepts. *)
Example capacity_2 : capacity 2 = 4294967292.
Proof. reflexivity. Qed.

Example capacity_largest_chunk : capacity (UINT32_MAX - 1) = UINT32_MAX - 1.
Proof. reflexivity. Qed.

(** X3. On a store built by the constructor and [add] calls, the index
    an [add] returns is the key of the new element: [operator[]] at
    that index returns the value just added, [size()] has grown by one,
    and [operator[]] at every index that was valid before returns what
    it returned before. *)
Theorem add_then_index {T : Type} (ChunkSize max_size reserve : Z)
    (values : list T) (s : ChunkedVector T) (rs : list (elem_ref * Z))
    (v : T) (s' : ChunkedVector T) (r : elem_ref) (idx : Z) :
  0 < ChunkSize ≤ UINT32_MAX →
  build ChunkSize max_size reserve values = Done (s, rs) →
  add ChunkSize max_size s v = Done (s', (r, idx)) →
  operator_index ChunkSize s' idx = Done v
  ∧ idx = size s
  ∧ size s' = size s + 1
  ∧ ∀ i, 0 ≤ i < size s →
      operator_index ChunkSize s' i = operator_index ChunkSize s i.
Proof.
  intros HC Hb Hadd.
  assert (0 < ChunkSize) as HC0 by lia.
  pose proof (build_shape _ _ _ _ _ _ HC0 Hb) as Hsh.
  destruct (build_guarded _ _ _ _ _ _ HC Hb) as [Hg _].
  destruct (shape_guarded_size _ s HC Hsh Hg) as [Hsz _].
  pose proof (add_shape _ _ _ _ _ _ HC0 Hsh Hadd) as Hsh'.
  pose proof (add_guarded _ _ _ _ _ _ HC Hsh Hg Hadd) as Hg'.
  destruct (shape_guarded_size _ s' HC Hsh' Hg') as [Hsz' _].
  rewrite (stored_add _ _ _ _ _ _ Hadd) in Hsz'.
  destruct (add_done _ _ _ _ _ _ _ Hadd) as (Hcat & _ & -> & _).
  unfold size. repeat apply conj; [|done|lia|].
  - rewrite operator_index_concat by (done || lia).
    rewrite Hcat, Hsz. unfold stored. rewrite Nat2Z.id.
    by rewrite list_lookup_middle.
  - intros i Hi. rewrite !operator_index_concat by (done || lia).
    rewrite Hcat, lookup_app_l; [done|].
    fold (stored s). lia.
Qed.

Lemma add_then_index_witness :
  operator_index 2 (mkChunkedVector 4 [["a"; "b"]; ["c"; "d"]]%string) 3
  = Done "d"%string
  ∧ 3 = size (mkChunkedVector 3 [["a"; "b"]; ["c"]]%string)
  ∧ size (mkChunkedVector 4 [["a"; "b"]; ["c"; "d"]]%string)
    = size (mkChunkedVector 3 [["a"; "b"]; ["c"]]%string) + 1
  ∧ ∀ i, 0 ≤ i < size (mkChunkedVector 3 [["a"; "b"]; ["c"]]%string) →
      operator_index 2 (mkChunkedVector 4 [["a"; "b"]; ["c"; "d"]]%string) i
      = operator_index 2 (mkChunkedVector 3 [["a"; "b"]; ["c"]]%string) i.
Proof.
  apply (add_then_index 2 max_size_string 0 ["a"; "b"; "c"]%string
           (mkChunkedVector 3 [["a"; "b"]; ["c"]]%string)
           [(mkRef 0 0, 0); (mkRef 0 1, 1); (mkRef 1 0, 2)]
           "d"%string
           (mkChunkedVector 4 [["a"; "b"]; ["c"; "d"]]%string)
           (mkRef 1 1) 3).
  - unfold UINT32_MAX. lia.
  - reflexivity.
  - reflexivity.
Defined.

(** X4. Stored elements stay where they are. The place (chunk, slot)
    that an [add] returns holds the value just stored, and it still
    holds that value after any further [add] calls; so does every
    place that held a value before them. This holds for every store
    and every [ChunkSize]; it is a statement about the contents of the
    chunks, not about the addresses of the elements. *)
Theorem stored_places_stable {T : Type} (ChunkSize max_size : Z)
    (s : ChunkedVector T) (v : T) (s1 : ChunkedVector T) (r : elem_ref)
    (idx : Z) (later : list T) (s' : ChunkedVector T)
    (rs : list (elem_ref * Z)) :
  add ChunkSize max_size s v = Done (s1, (r, idx)) →
  add_seq ChunkSize max_size s1 later = Done (s', rs) →
  deref s1 r = Some v
  ∧ deref s' r = Some v
  ∧ ∀ r0 x, deref s r0 = Some x → deref s' r0 = Some x.
Proof.
  intros Hadd Hseq.
  destruct (add_done _ _ _ _ _ _ _ Hadd) as (_ & _ & _ & Hr).
  split; [done|]. split.
  - by eapply add_seq_deref_stable.
  - intros r0 x Hx. eapply add_seq_deref_stable; [done|].
    by eapply add_deref_stable.
Qed.

Lemma stored_places_stable_witness :
  deref (mkChunkedVector 2 [["a"; "b"]]%string) (mkRef 0 1) = Some "b"%string
  ∧ deref (mkChunkedVector 4 [["a"; "b"]; ["c"; "d"]]%string) (mkRef 0 1)
    = Some "b"%string
  ∧ ∀ r0 x,
      deref (mkChunkedVector 1 [["a"]]%string) r0 = Some x →
      deref (mkChunkedVector 4 [["a"; "b"]; ["c"; "d"]]%string) r0 = Some x.
Proof.
  apply (stored_places_stable 2 max_size_string
           (mkChunkedVector 1 [["a"]]%string) "b"%string
           (mkChunkedVector 2 [["a"; "b"]]%string) (mkRef 0 1) 1
           ["c"; "d"]%string
           (mkChunkedVector 4 [["a"; "b"]; ["c"; "d"]]%string)
           [(mkRef 1 0, 2); (mkRef 1 1, 3)]).
  - reflexivity.
  - reflexivity.
Defined.

(** X5. [add] writes to the tail chunk only: after any sequence of
    [add] calls the store has at least as many chunks as before and
    every chunk that was not the tail chunk is identical to what it
    was. *)
Theorem inner_chunks_frozen {T : Type} (ChunkSize max_size : Z)
    (s : ChunkedVector T) (later : list T) (s' : ChunkedVector T)
    (rs : list (elem_ref * Z)) :
  add_seq ChunkSize max_size s later = Done (s', rs) →
  (length (chunks s) ≤ length (chunks s'))%nat
  ∧ ∀ j : nat, (S j < length (chunks s))%nat →
      chunks s' !! j = chunks s !! j.
Proof. apply add_seq_inner_chunks. Qed.

Lemma inner_chunks_frozen_witness :
  (length [["a"; "b"]; ["c"]]%string
   ≤ length [["a"; "b"]; ["c"; "d"]; ["e"]]%string)%nat
  ∧ ∀ j : nat, (S j < length [["a"; "b"]; ["c"]]%string)%nat →
      [["a"; "b"]; ["c"; "d"]; ["e"]]%string !! j
      = [["a"; "b"]; ["c"]]%string !! j.
Proof.
  apply (inner_chunks_frozen 2 max_size_string
           (mkChunkedVector 3 [["a"; "b"]; ["c"]]%string)
           ["d"; "e"]%string
           (mkChunkedVector 5 [["a"; "b"]; ["c"; "d"]; ["e"]]%string)
           [(mkRef 1 1, 3); (mkRef 2 0, 4)]).
  reflexivity.
Defined.

(** X6. [forEach] after an [add] is [forEach] before it followed by one
    more call of the visitor, on the value added: the new element is
    visited last. This holds for every store and every [ChunkSize]. *)
Theorem forEach_after_add {T A : Type} (ChunkSize max_size : Z)
    (fn : A → T → A)
    (s : ChunkedVector T) (v : T) (s' : ChunkedVector T)
    (ri : elem_ref * Z) (a : A) :
  add ChunkSize max_size s v = Done (s', ri) →
  forEach fn s' a = fn (forEach fn s a) v.
Proof.
  destruct ri as [r idx]. intros (Hcat & _)%add_done.
  unfold forEach. by rewrite !foldl_concat, Hcat, foldl_app.
Qed.

Lemma forEach_after_add_witness :
  forEach (λ seen e, seen ++ [e])
    (mkChunkedVector 3 [["a"; "b"]; ["c"]]%string) []
  = forEach (λ seen e, seen ++ [e])
      (mkChunkedVector 2 [["a"; "b"]]%string) [] ++ ["c"%string].
Proof.
  apply (forEach_after_add 2 max_size_string (λ seen e, seen ++ [e])
           (mkChunkedVector 2 [["a"; "b"]]%string) "c"%string
           (mkChunkedVector 3 [["a"; "b"]; ["c"]]%string)
           (mkRef 1 0, 2) []).
  reflexivity.
Defined.

(** X7. The first chunk is filled without any check. For every
    [ChunkSize] other than [UINT32_MAX] that [reserve] accepts (at most
    [max_size ()]), up to [ChunkSize] [add] calls all return, the
    values are the one chunk of the store, and [size()] is the number
    of calls modulo 2^32. With [ChunkSize] at most [UINT32_MAX] that
    is the number of calls; above it, with a 64-bit [size_t], the
    counter wraps and no [add] aborts. *)
Theorem first_chunk_unguarded {T : Type} (ChunkSize max_size reserve : Z)
    (values : list T) :
  0 ≤ ChunkSize < 2 ^ 64 →
  ChunkSize ≠ UINT32_MAX →
  ChunkSize ≤ max_size →
  Z.of_nat (length values) ≤ ChunkSize →
  ∃ rs,
    build ChunkSize max_size reserve values
    = Done (mkChunkedVector (wrap32 (Z.of_nat (length values))) [values], rs).
Proof.
  intros HC Hne Hms Hlen. apply build_first_chunk; [|done..].
  pose proof (guard_zero_iff ChunkSize HC) as Hzero.
  destruct (Z.leb_spec (wrap_size_t (UINT32_MAX - ChunkSize)) 0) as [Hle|?];
    [|done].
  by apply Hzero in Hle.
Qed.

Lemma first_chunk_unguarded_witness :
  ∃ rs,
    build 2 max_size_string 0 ["a"; "b"]%string
    = Done (mkChunkedVector (wrap32 (Z.of_nat (length ["a"; "b"]%string)))
              [["a"; "b"]%string], rs).
Proof.
  pose proof max_size_string_large as Hlarge.
  apply (first_chunk_unguarded 2 max_size_string 0 ["a"; "b"]%string).
  - lia.
  - unfold UINT32_MAX. lia.
  - lia.
  - cbn. lia.
Defined.

(** X11. [addChunk] is always followed by an [emplace_back] into the
    new chunk, so only a store without elements has an empty chunk:
    once a value has been added every chunk holds at least one element,
    and there are at most as many chunks as elements. *)
Theorem no_empty_chunk {T : Type} (ChunkSize max_size reserve : Z)
    (values : list T) (s : ChunkedVector T) (rs : list (elem_ref * Z)) :
  0 < ChunkSize →
  build ChunkSize max_size reserve values = Done (s, rs) →
  values ≠ [] →
  Forall (λ c, c ≠ []) (chunks s)
  ∧ (length (chunks s) ≤ length values)%nat.
Proof.
  intros HC Hb Hne.
  pose proof (build_shape _ _ _ _ _ _ HC Hb) as Hsh.
  pose proof (build_stored _ _ _ _ _ _ Hb) as Hst.
  destruct Hsh as (pre & bk & Hcs & Hfull & Hle & Hbk & _).
  assert (Z.of_nat (length values)
          = Z.of_nat (length pre) * ChunkSize + Z.of_nat (length bk)) as Hn.
  { rewrite <- Hst. destruct s as [sz cs]. cbn [chunks] in Hcs. subst cs.
    by apply stored_snoc. }
  assert (0 < length values)%nat as Hpos by (destruct values; [done|cbn; lia]).
  assert (0 < length bk)%nat as Hbk'.
  { destruct Hbk as [->|?]; [|done]. cbn [length] in Hn. lia. }
  rewrite Hcs. split.
  - apply Forall_app. split.
    + eapply Forall_impl; [exact Hfull|]. cbn. intros c Hc ->.
      cbn [length] in Hc. lia.
    + apply Forall_singleton. intros ->. cbn [length] in Hbk'. lia.
  - rewrite length_app. cbn [length]. nia.
Qed.

Lemma no_empty_chunk_witness :
  Forall (λ c, c ≠ []) [["a"; "b"]; ["c"]]%string
  ∧ (length [["a"; "b"]; ["c"]]%string ≤ length ["a"; "b"; "c"]%string)%nat.
Proof.
  apply (no_empty_chunk 2 max_size_string 0 ["a"; "b"; "c"]%string
           (mkChunkedVector 3 [["a"; "b"]; ["c"]]%string)
           [(mkRef 0 0, 0); (mkRef 0 1, 1); (mkRef 1 0, 2)]).
  - lia.
  - reflexivity.
  - discriminate.
Defined.

(** * Further properties of BackedStringView *)

Local Close Scope Z_scope.

(** [strlen] finds the first NUL, and finds none in an array without. *)
Lemma strlen_at_nul (bytes rest : string) :
  nul_free bytes = true →
  strlen (String.append bytes (String Ascii.zero rest))
  = Some (String.length bytes).
Proof.
  induction bytes as [|a bytes IH]; intros Hfree; [reflexivity|].
  simpl in Hfree |- *.
  destruct (Ascii.eqb a Ascii.zero); simpl in Hfree |- *; [discriminate|].
  by rewrite (IH Hfree).
Qed.

Lemma strlen_nul_free (buf : string) :
  nul_free buf = true → strlen buf = None.
Proof.
  induction buf as [|a buf IH]; intros Hfree; [reflexivity|].
  simpl in Hfree |- *.
  destruct (Ascii.eqb a Ascii.zero); simpl in Hfree |- *; [discriminate|].
  by rewrite (IH Hfree).
Qed.

Lemma substring_append (bytes rest : string) :
  String.substring 0 (String.length bytes) (String.append bytes rest)
  = bytes.
Proof.
  induction bytes as [|a bytes IH]; simpl.
  - by destruct rest.
  - by rewrite IH.
Qed.

Lemma length_append (s1 s2 : string) :
  String.length (String.append s1 s2)
  = String.length s1 + String.length s2.
Proof. induction s1 as [|a s1 IH]; simpl; [done|]. by rewrite IH. Qed.

(** X8. [toOwned] and [operator*] never leave by an exception and never
    abort: each [std::get] asks for the alternative that [isOwned] has
    just found active. [toOwned] misbehaves only when it has to copy
    from a slice that dangles, [operator*] only on a string whose
    buffer is gone. *)
Theorem BackedStringView_never_throws (h : heap) (b : BackedStringView) :
  toOwned h b ≠ Thrown
  ∧ toOwned h b ≠ Aborted
  ∧ operator_star h b ≠ Thrown
  ∧ operator_star h b ≠ Aborted
  ∧ (toOwned h b = Undefined
     ↔ ∃ sv, b = of_view sv ∧ view_bytes h sv = None)
  ∧ (operator_star h b = Undefined
     ↔ ∃ buf, b = of_string buf ∧ string_bytes h buf = None).
Proof.
  destruct b as [[buf|sv]];
    unfold toOwned, operator_star, isOwned, string_from_view,
      string_to_view, string_bytes, of_view, of_string;
    cbn [data holds_alternative_0 get_0 get_1 mbind outcome_bind].
  - destruct (h !! str_buf buf) as [contents|] eqn:Hbuf;
      repeat split;
      first [ done
            | by intros (? & [=] & _)
            | intros (? & [= <-] & ?); congruence
            | intros _; by exists buf ].
  - destruct (view_bytes h sv) as [bytes|] eqn:Hbytes;
      repeat split;
      first [ done
            | by intros (? & [=] & _)
            | intros (? & [= <-] & ?); congruence
            | intros _; by exists sv ].
Qed.

(** X9. Owning a borrowed string and wrapping the result again: the
    copy made by [toOwned] is the last one. A view constructed from the
    returned string is owned, its [toOwned] hands the same string back
    and leaves the heap alone, and its [operator*] exposes the bytes of
    the original slice from a buffer that is not the slice's. *)
Theorem toOwned_then_of_string (h : heap) (sv : string_view)
    (bytes : string) :
  view_bytes h sv = Some bytes →
  ∃ (s : std_string) (h' : heap),
    toOwned h (of_view sv) = Done (s, h')
    ∧ isOwned (of_string s) = true
    ∧ toOwned h' (of_string s) = Done (s, h')
    ∧ ∃ sv',
        operator_star h' (of_string s) = Done sv'
        ∧ view_bytes h' sv' = Some bytes
        ∧ sv_buf sv' ≠ sv_buf sv.
Proof.
  intros Hbytes.
  unfold toOwned, operator_star, isOwned, string_from_view, string_to_view,
    of_view, of_string.
  cbn [data holds_alternative_0 get_0 get_1 mbind outcome_bind].
  rewrite Hbytes. eexists _, _. split; [done|]. split; [done|].
  split; [done|]. cbn [str_buf]. rewrite lookup_insert_eq.
  eexists. split; [done|]. split.
  - apply view_bytes_whole. by rewrite lookup_insert_eq.
  - cbn [sv_buf].
    match goal with
    | |- ?l ≠ _ =>
        assert (h !! l = None) as Hfresh by (apply not_elem_of_dom, is_fresh)
    end.
    intros Heq. unfold view_bytes in Hbytes.
    destruct (h !! sv_buf sv) as [buf|] eqn:Hbuf; [|done].
    rewrite Heq, Hbuf in Hfresh. discriminate.
Qed.

Lemma toOwned_then_of_string_witness :
  ∃ (s : std_string) (h' : heap),
    toOwned {[0%nat := "hello"%string]} (of_view (mkView 0 1 3))
    = Done (s, h')
    ∧ isOwned (of_string s) = true
    ∧ toOwned h' (of_string s) = Done (s, h')
    ∧ ∃ sv',
        operator_star h' (of_string s) = Done sv'
        ∧ view_bytes h' sv' = Some "ell"%string
        ∧ sv_buf sv' ≠ sv_buf (mkView 0 1 3).
Proof.
  apply (toOwned_then_of_string {[0%nat := "hello"%string]} (mkView 0 1 3)
           "ell"%string).
  reflexivity.
Defined.

(** X10. The constructor from a character array borrows: for an
    array that holds a NUL the view is not owned and [operator*]
    exposes the characters before the first NUL, without copying them.
    For an array that holds no NUL the constructor reads past the
    array. *)
Theorem of_literal_borrows (h : heap) (lit : loc) (buf : string) :
  h !! lit = Some buf →
  (∀ bytes rest : string,
     buf = String.append bytes (String Ascii.zero rest) →
     nul_free bytes = true →
     let sv := mkView lit 0 (String.length bytes) in
     of_literal h lit = Done (of_view sv)
     ∧ isOwned (of_view sv) = false
     ∧ operator_star h (of_view sv) = Done sv
     ∧ view_bytes h sv = Some bytes)
  ∧ (nul_free buf = true → of_literal h lit = Undefined).
Proof.
  intros Hlit. unfold of_literal. rewrite Hlit. split.
  - intros bytes rest -> Hfree. cbv zeta.
    rewrite (strlen_at_nul _ _ Hfree). repeat split.
    unfold view_bytes. cbn [sv_buf sv_pos sv_len]. rewrite Hlit. cbn.
    rewrite decide_True by (rewrite length_append; lia).
    by rewrite substring_append.
  - intros Hfree. by rewrite (strlen_nul_free _ Hfree).
Qed.

Lemma of_literal_borrows_witness :
  (∀ bytes rest : string,
     String.append "ab" (String Ascii.zero "cd")
     = String.append bytes (String Ascii.zero rest) →
     nul_free bytes = true →
     let sv := mkView 0 0 (String.length bytes) in
     of_literal {[0 := String.append "ab" (String Ascii.zero "cd")]} 0
     = Done (of_view sv)
     ∧ isOwned (of_view sv) = false
     ∧ operator_star {[0 := String.append "ab" (String Ascii.zero "cd")]}
         (of_view sv)
       = Done sv
     ∧ view_bytes {[0 := String.append "ab" (String Ascii.zero "cd")]} sv
       = Some bytes)
  ∧ (nul_free (String.append "ab" (String Ascii.zero "cd")) = true →
     of_literal {[0 := String.append "ab" (String Ascii.zero "cd")]} 0
     = Undefined).
Proof.
  apply (of_literal_borrows
           {[0 := String.append "ab" (String Ascii.zero "cd")]} 0
           (String.append "ab" (String Ascii.zero "cd"))).
  reflexivity.
Defined.

(** An array with a NUL in the middle is seen up to the NUL; an array
    without a NUL is read past its end. *)
Example of_literal_embedded_nul :
  (b ← of_literal {[0 := String.append "ab" (String Ascii.zero "cd")]} 0;
   sv ← operator_star
          {[0 := String.append "ab" (String Ascii.zero "cd")]} b;
   Done (view_bytes
           {[0 := String.append "ab" (String Ascii.zero "cd")]} sv))
  = Done (Some "ab"%string).
Proof. reflexivity. Qed.

Example of_literal_no_nul :
  of_literal {[0 := "abc"%string]} 0 = Undefined.
Proof. reflexivity. Qed.
